(** * soldr: declarative field validation for request messages

    A shallow embedding of [soldr.go] (package [soldr]) and the properties
    of its builder methods and of [Evaluate].

    Conventions.
    - A Go [error] is [option string]: [None] is [nil], [Some m] a non-nil
      error whose message is [m].
    - Methods with a pointer receiver [*Subject] that mutate the receiver or
      call out (path resolver, hooks, actions, fault handler) live in the
      monad [M Subject]: they read and update the receiver, may panic, and
      emit the calls they make as [Event]s.
    - Read-only methods are plain functions of the receiver. *)

From stdpp Require Import gmap strings list fin_maps.

(** ** Faults and events *)

(** Modelled from the spec: the [Fault] struct is declared outside
    [soldr.go]; the spec gives it two fields, the path (empty for a fault
    that belongs to the request) and the underlying failure, and the test
    file reads them as [Field] and [Err]. *)
Record Fault : Type := mkFault { FaultField : string; FaultErr : string }.

#[global] Instance Fault_eq_dec : EqDecision Fault.
Proof. solve_decision. Defined.

(** Modelled from the spec: the constructor of a request-scoped fault,
    declared outside [soldr.go]. *)
Definition RequestFault (err : string) : Fault := mkFault "" err.

(** Modelled from the spec: the constructor of a field-scoped fault,
    declared outside [soldr.go]. *)
Definition FieldFault (subject : string) (fault : string) : Fault :=
  mkFault subject fault.

Inductive Hook : Type := HInit | HSuccess | HPost.

Inductive PolicyKind : Type := KTrait | KAction.

(** What a method call does to the outside of the receiver. *)
Inductive Event : Type :=
| EvResolve (path : string)          (* fieldProcessor.isFieldSet(path, message) *)
| EvHook (h : Hook)                  (* a hook slot was called *)
| EvExecuteAll                       (* pm.ExecuteAllPolicies(ctx, message) *)
| EvPolicy (k : PolicyKind) (i : nat) (* the i-th policy of a kind was evaluated *)
| EvAction (i : nat)                 (* the action of the i-th action policy ran *)
| EvToError (fs : list Fault).       (* fh.ToError(fs) *)

#[global] Instance Hook_eq_dec : EqDecision Hook.
Proof. solve_decision. Defined.
#[global] Instance PolicyKind_eq_dec : EqDecision PolicyKind.
Proof. solve_decision. Defined.
#[global] Instance Event_eq_dec : EqDecision Event.
Proof. solve_decision. Defined.

(** ** A state, panic and trace monad *)

Record Res (S A : Type) : Type :=
  mkRes { outcome : option A; (* [None]: the call panicked *)
          final : S;
          events : list Event }.
Arguments mkRes {S A} _ _ _.
Arguments outcome {S A} _.
Arguments final {S A} _.
Arguments events {S A} _.

Definition M (S A : Type) : Type := S -> Res S A.

Definition ret {S A} (a : A) : M S A := fun s => mkRes (Some a) s [].

Definition bind {S A B} (m : M S A) (k : A -> M S B) : M S B := fun s =>
  let r := m s in
  match outcome r with
  | None => mkRes None (final r) (events r)
  | Some a =>
      let r' := k a (final r) in
      mkRes (outcome r') (final r') (events r ++ events r')
  end.

Definition get {S} : M S S := fun s => mkRes (Some s) s [].
Definition put {S} (s' : S) : M S unit := fun _ => mkRes (Some tt) s' [].
Definition emit {S} (e : Event) : M S unit := fun s => mkRes (Some tt) s [e].
Definition panic {S A} : M S A := fun s => mkRes None s [].

(** Runs a computation on a part of the state, given its getter and setter. *)
Definition zoom {S T A} (gt : S -> T) (st : T -> S -> S) (m : M T A) : M S A :=
  fun s => let r := m (gt s) in mkRes (outcome r) (st (final r) s) (events r).

Declare Scope soldr_scope.
Delimit Scope soldr_scope with soldr.
Notation "x <- c1 ;; c2" := (bind c1 (fun x => c2))
  (at level 100, c1 at next level, right associativity) : soldr_scope.
Notation "c1 ;; c2" := (bind c1 (fun _ => c2))
  (at level 100, right associativity) : soldr_scope.
Open Scope soldr_scope.

(** ** Dynamic values *)

(** The [interface{}] argument of [AssertNonZero]: the untyped [nil], or a
    scalar or a message pointer as the getters of a message return them. *)
Inductive any : Type :=
| ANil
| AString (s : string)
| AInt (z : Z)
| ABool (b : bool)
| APointer (isNil : bool).

(** [i == nil || reflect.ValueOf(i).IsZero()] *)
Definition isZero (i : any) : bool :=
  match i with
  | ANil => true
  | AString s => bool_decide (s = "")
  | AInt z => bool_decide (z = 0%Z)
  | ABool b => negb b
  | APointer isNil => isNil
  end.

(** ** Fields, policies and the policy manager *)

(** Modelled from the spec: the [Field] struct and [NewField] are declared
    outside [soldr.go]; a Field is the path, the optionally supplied value,
    mask membership and the presence measured at declaration, which
    [NewField] takes in this order. *)
Record Field : Type :=
  NewField { f_path : string; f_value : any; f_inMask : bool; f_isSet : bool }.

(** Modelled from the spec: the two trigger conditions, methods of [Field]
    declared outside [soldr.go]: [MustBeSet] always triggers and
    [MustBeSetIfInMask] triggers only when the field is in the mask. *)
Inductive Condition : Type := MustBeSet | MustBeSetIfInMask.

Definition triggered (c : Condition) (f : Field) : bool :=
  match c with
  | MustBeSet => true
  | MustBeSetIfInMask => f_inMask f
  end.

Inductive Trait : Type := NotZeroTrait.

(** The generic failure of a trait policy. *)
Definition prevalErr : string := "the message failed prevalidation".
Definition postValErr : string := "the message failed postvalidation".

(** The fault handler interface: one method, [ToError], whose Go result
    type [error] admits [nil]. *)
Record FaultHandler : Type := mkFaultHandler { ToError : list Fault -> option string }.

(** Modelled from the spec: [newDefaultFaultHandler] is declared outside
    [soldr.go]; by default every fault is rendered as [<path>: <message>]
    and the renderings are concatenated into one error. *)
Definition renderFault (f : Fault) : string :=
  FaultField f +:+ ": " +:+ FaultErr f +:+ "
".

Definition newDefaultFaultHandler : FaultHandler :=
  mkFaultHandler (fun fs => Some (String.concat "" (map renderFault fs))).

(** The order in which a [range] over a Go map visits its entries is chosen
    by the runtime; a [RangeOrder] is one such choice, applied to the
    entries of the map. *)
Definition RangeOrder : Type := list (string * string) -> list (string * string).

Definition fair (ro : RangeOrder) : Prop := forall l, ro l ≡ₚ l.

Section Soldr.

(** The message type [T] and [context.Context]. *)
Context {Msg Ctx : Type}.

(** [Action[T]]: a callable on the context and the message; the message is
    a pointer, so the action may change it: it returns the message as it
    leaves it together with its [error]. *)
Definition Action : Type := Ctx -> Msg -> Msg * option string.

(** The path resolver: [isFieldSet(path, message)] is declared outside
    [soldr.go] and is taken as a parameter. *)
Record fieldProcessor : Type :=
  mkFieldProcessor { fp_isFieldSet : string -> Msg -> bool }.

Variable newFieldProcessor : fieldProcessor.

Record TraitPolicy : Type :=
  NewPolicy { tp_trait : Trait; tp_cond : Condition; tp_field : Field }.

Record ActionPolicy : Type :=
  NewActionPolicy { ap_cond : Condition; ap_field : Field; ap_action : Action }.

Record policyManager : Type :=
  mkPolicyManager { traitPolicies : list TraitPolicy;
                    actionPolicies : list ActionPolicy }.

Definition NewPolicyManager : policyManager := mkPolicyManager [] [].

Definition AddTraitPolicy (p : TraitPolicy) (pm : policyManager) : policyManager :=
  mkPolicyManager (traitPolicies pm ++ [p]) (actionPolicies pm).

Definition AddActionPolicy (p : ActionPolicy) (pm : policyManager) : policyManager :=
  mkPolicyManager (traitPolicies pm) (actionPolicies pm ++ [p]).

(** Modelled from the spec: [ExecuteAllPolicies] is declared outside
    [soldr.go]. Every trait policy is evaluated: when its condition
    triggers and the field is not set, a fault with the generic failure is
    written at its path. Every action policy is evaluated: when its
    condition triggers, its action runs on the context and the message, and
    its failure, if any, is written at its path. The output is a mapping
    from path to fault, so a later write at a path replaces an earlier one.
    The state is the message, which an action may change. *)
Fixpoint executeTraitPolicies (i : nat) (ps : list TraitPolicy)
    (acc : gmap string string) : M Msg (gmap string string) :=
  match ps with
  | [] => ret acc
  | p :: ps' =>
      emit (EvPolicy KTrait i) ;;
      let acc' :=
        if triggered (tp_cond p) (tp_field p) && negb (f_isSet (tp_field p))
        then <[f_path (tp_field p) := prevalErr]> acc
        else acc in
      executeTraitPolicies (S i) ps' acc'
  end.

Definition runAction (i : nat) (a : Action) (ctx : Ctx) : M Msg (option string) :=
  emit (EvAction i) ;;
  msg <- get ;;
  let r := a ctx msg in
  put r.1 ;;
  ret r.2.

Fixpoint executeActionPolicies (ctx : Ctx) (i : nat) (ps : list ActionPolicy)
    (acc : gmap string string) : M Msg (gmap string string) :=
  match ps with
  | [] => ret acc
  | p :: ps' =>
      emit (EvPolicy KAction i) ;;
      acc' <- (if triggered (ap_cond p) (ap_field p)
               then e <- runAction i (ap_action p) ctx ;;
                    match e with
                    | Some err => ret (<[f_path (ap_field p) := err]> acc)
                    | None => ret acc
                    end
               else ret acc) ;;
      executeActionPolicies ctx (S i) ps' acc'
  end.

Definition ExecuteAllPolicies (pm : policyManager) (ctx : Ctx)
    : M Msg (gmap string string) :=
  emit EvExecuteAll ;;
  acc <- executeTraitPolicies 0 (traitPolicies pm) ∅ ;;
  executeActionPolicies ctx 0 (actionPolicies pm) acc.

(** ** The Subject *)

Record Subject : Type := mkSubject {
  initAction : option Action;
  successAction : option Action;
  postAction : option Action;
  pm : policyManager;
  fh : option FaultHandler;
  paths : option (gmap string ());
  fieldProcessor_ : fieldProcessor;
  message : Msg
}.

Definition set_message (m : Msg) (s : Subject) : Subject :=
  mkSubject (initAction s) (successAction s) (postAction s) (pm s) (fh s)
            (paths s) (fieldProcessor_ s) m.

Definition set_pm (p : policyManager) (s : Subject) : Subject :=
  mkSubject (initAction s) (successAction s) (postAction s) p (fh s)
            (paths s) (fieldProcessor_ s) (message s).

Definition set_fh (h : option FaultHandler) (s : Subject) : Subject :=
  mkSubject (initAction s) (successAction s) (postAction s) (pm s) h
            (paths s) (fieldProcessor_ s) (message s).

Definition set_initAction (a : option Action) (s : Subject) : Subject :=
  mkSubject a (successAction s) (postAction s) (pm s) (fh s)
            (paths s) (fieldProcessor_ s) (message s).

Definition set_successAction (a : option Action) (s : Subject) : Subject :=
  mkSubject (initAction s) a (postAction s) (pm s) (fh s)
            (paths s) (fieldProcessor_ s) (message s).

Definition set_postAction (a : option Action) (s : Subject) : Subject :=
  mkSubject (initAction s) (successAction s) a (pm s) (fh s)
            (paths s) (fieldProcessor_ s) (message s).

(** [getPathsFromMask]: a nil or empty mask gives the nil map, any other
    mask the set of its paths. *)
Definition getPathsFromMask (fieldMask : list string) : option (gmap string ()) :=
  match fieldMask with
  | [] => None
  | _ => Some (foldl (fun paths f => <[f := tt]> paths) ∅ fieldMask)
  end.

Definition ForSubject (subject : Msg) (fieldMask : list string) : Subject :=
  {| initAction := None; successAction := None; postAction := None;
     pm := NewPolicyManager;
     fh := None;
     paths := getPathsFromMask fieldMask;
     fieldProcessor_ := newFieldProcessor;
     message := subject |}.

Definition isFieldInMask (s : Subject) (path : string) : bool :=
  match paths s with
  | None => false
  | Some ps => bool_decide (is_Some (ps !! path))
  end.

(** [p.fieldProcessor.isFieldSet(path, p.message)] *)
Definition resolve (path : string) : M Subject bool :=
  emit (EvResolve path) ;;
  p <- get ;;
  ret (fp_isFieldSet (fieldProcessor_ p) path (message p)).

Definition isFieldSet (i : any) (path : string) (isForAction : bool) : M Subject bool :=
  if isForAction then resolve path
  else
    let ifs := isZero i in
    if negb ifs then resolve path
    else ret ifs.

Definition modify (f : Subject -> Subject) : M Subject unit :=
  s <- get ;; put (f s).

Definition AssertNonZero (path : string) (value : any) : M Subject unit :=
  p <- get ;;
  let inMask := isFieldInMask p path in
  set <- isFieldSet value path false ;;
  let field := NewField path value inMask set in
  let traitPolicy := NewPolicy NotZeroTrait MustBeSet field in
  modify (fun p => set_pm (AddTraitPolicy traitPolicy (pm p)) p).

Definition AssertNonZeroWhenInMask (path : string) (value : any) : M Subject unit :=
  p <- get ;;
  let inMask := isFieldInMask p path in
  set <- isFieldSet value path false ;;
  let field := NewField path value inMask set in
  let traitPolicy := NewPolicy NotZeroTrait MustBeSetIfInMask field in
  modify (fun p => set_pm (AddTraitPolicy traitPolicy (pm p)) p).

Definition AssertCustom (path : string) (action : Action) : M Subject unit :=
  p <- get ;;
  let inMask := isFieldInMask p path in
  set <- isFieldSet ANil path true ;;
  let field := NewField path ANil inMask set in
  let actionPolicy := NewActionPolicy MustBeSet field action in
  modify (fun p => set_pm (AddActionPolicy actionPolicy (pm p)) p).

Definition AssertCustomWhenInMask (path : string) (action : Action) : M Subject unit :=
  p <- get ;;
  let inMask := isFieldInMask p path in
  set <- isFieldSet ANil path true ;;
  let field := NewField path ANil inMask set in
  let actionPolicy := NewActionPolicy MustBeSetIfInMask field action in
  modify (fun p => set_pm (AddActionPolicy actionPolicy (pm p)) p).

Definition BeforeValidation (act : Action) : M Subject unit :=
  modify (set_initAction (Some act)).

Definition OnSuccess (act : Action) : M Subject unit :=
  modify (set_successAction (Some act)).

Definition CustomFaultHandler (e : FaultHandler) : M Subject unit :=
  modify (set_fh (Some e)).

(** A hook slot called on the context and the message: the shared body of
    [init], [onSuccess] and [postValidation]. *)
Definition callHook (h : Hook) (slot : option Action) (ctx : Ctx)
    : M Subject (option Fault) :=
  match slot with
  | Some act =>
      emit (EvHook h) ;;
      s <- get ;;
      let r := act ctx (message s) in
      put (set_message r.1 s) ;;
      match r.2 with
      | Some e => ret (Some (RequestFault e))
      | None => ret None
      end
  | None => ret None
  end.

Definition init (ctx : Ctx) : M Subject (option Fault) :=
  s <- get ;; callHook HInit (initAction s) ctx.

Definition onSuccess (ctx : Ctx) : M Subject (option Fault) :=
  s <- get ;; callHook HSuccess (successAction s) ctx.

Definition postValidation (ctx : Ctx) : M Subject (option Fault) :=
  s <- get ;; callHook HPost (postAction s) ctx.

(** [s.fh.ToError(f)]: a method call on a nil interface value panics. *)
Definition callToError (f : list Fault) : M Subject (option string) :=
  s <- get ;;
  match fh s with
  | None => panic
  | Some h => emit (EvToError f) ;; ret (ToError h f)
  end.

Definition err (f : list Fault) : M Subject (option string) :=
  s <- get ;;
  (match fh s with
   | None => put (set_fh (Some newDefaultFaultHandler) s)
   | Some _ => ret tt
   end) ;;
  if bool_decide (length f = 0) then ret None
  else callToError f.

(** The loop of [Evaluate] over the mapping returned by the policy manager,
    in the order [ro] of this run. *)
Definition fieldFaults (ro : RangeOrder) (allFaults : gmap string string) : list Fault :=
  map (fun '(subject, fault) => FieldFault subject fault) (ro (map_to_list allFaults)).

(** The part of [Evaluate] between the pre-hook and the fault handler: the
    policies run, their faults are collected, and the success hook runs
    when there is none. *)
Definition collectFaults (ro : RangeOrder) (ctx : Ctx) : M Subject (list Fault) :=
  s <- get ;;
  allFaults <- zoom message set_message (ExecuteAllPolicies (pm s) ctx) ;;
  let faults := fieldFaults ro allFaults in
  if bool_decide (length faults = 0) then
    successFault <- onSuccess ctx ;;
    match successFault with
    | Some f => ret (faults ++ [f])
    | None => ret faults
    end
  else ret faults.

Definition Evaluate (ro : RangeOrder) (ctx : Ctx) : M Subject (option string) :=
  e <- init ctx ;;
  match e with
  | Some f => callToError [f]
  | None =>
      faults <- collectFaults ro ctx ;;
      err faults
  end.

(** [E]: shorthand for [Evaluate]. *)
Definition E (ro : RangeOrder) (ctx : Ctx) : M Subject (option string) :=
  Evaluate ro ctx.

(** ** Builder chains *)

(** One call of the builder API. *)
Inductive Decl : Type :=
| DNonZero (path : string) (value : any)
| DNonZeroWhenInMask (path : string) (value : any)
| DCustom (path : string) (action : Action)
| DCustomWhenInMask (path : string) (action : Action)
| DBeforeValidation (act : Action)
| DOnSuccess (act : Action)
| DCustomFaultHandler (e : FaultHandler).

Definition declare (d : Decl) : M Subject unit :=
  match d with
  | DNonZero path value => AssertNonZero path value
  | DNonZeroWhenInMask path value => AssertNonZeroWhenInMask path value
  | DCustom path action => AssertCustom path action
  | DCustomWhenInMask path action => AssertCustomWhenInMask path action
  | DBeforeValidation act => BeforeValidation act
  | DOnSuccess act => OnSuccess act
  | DCustomFaultHandler e => CustomFaultHandler e
  end.

(** A chain of builder calls, first call first. *)
Fixpoint chain (ds : list Decl) : M Subject unit :=
  match ds with
  | [] => ret tt
  | d :: ds' => declare d ;; chain ds'
  end.

(** The rule a builder call declares, if it declares a trait rule: its
    path and its condition. *)
Definition traitDecl (d : Decl) : option (string * Condition) :=
  match d with
  | DNonZero path _ => Some (path, MustBeSet)
  | DNonZeroWhenInMask path _ => Some (path, MustBeSetIfInMask)
  | _ => None
  end.

(** The rule a builder call declares, if it declares an action rule: its
    path, its condition and its action. *)
Definition actionDecl (d : Decl) : option (string * Condition * Action) :=
  match d with
  | DCustom path action => Some (path, MustBeSet, action)
  | DCustomWhenInMask path action => Some (path, MustBeSetIfInMask, action)
  | _ => None
  end.

(** The paths a chain of builder calls asks the resolver about, in order:
    a value rule asks only when its value is not zero, an action rule
    always. *)
Definition resolverCall (d : Decl) : option Event :=
  match d with
  | DNonZero path value | DNonZeroWhenInMask path value =>
      if isZero value then None else Some (EvResolve path)
  | DCustom path _ | DCustomWhenInMask path _ => Some (EvResolve path)
  | _ => None
  end.

(** The hook or the handler a builder call sets, if it sets one. *)
Definition initDecl (d : Decl) : option Action :=
  match d with DBeforeValidation act => Some act | _ => None end.

Definition successDecl (d : Decl) : option Action :=
  match d with DOnSuccess act => Some act | _ => None end.

Definition handlerDecl (d : Decl) : option FaultHandler :=
  match d with DCustomFaultHandler e => Some e | _ => None end.

(** A value rule whose supplied value is the zero value or nil. *)
Definition zeroValueRule (d : Decl) : bool :=
  match d with
  | DNonZero _ value | DNonZeroWhenInMask _ value => isZero value
  | _ => false
  end.

(** Every declared trait policy is on a field recorded as set. *)
Definition allRecordedSet (pm : policyManager) : Prop :=
  Forall (fun p => f_isSet (tp_field p) = true) (traitPolicies pm).

(** The mask membership recorded in every Field is membership of its path
    in the mask of the Subject. *)
Definition inMaskRecorded (s : Subject) : Prop :=
  Forall (fun p => f_inMask (tp_field p) = isFieldInMask s (f_path (tp_field p)))
         (traitPolicies (pm s)) /\
  Forall (fun p => f_inMask (ap_field p) = isFieldInMask s (f_path (ap_field p)))
         (actionPolicies (pm s)).

(** What the resolver answers for a path on the message of a Subject. *)
Definition resolved (s : Subject) (path : string) : bool :=
  fp_isFieldSet (fieldProcessor_ s) path (message s).

(** Every declared policy is on a field recorded as out of the mask. *)
Definition outOfMask (s : Subject) : Prop :=
  Forall (fun p => f_inMask (tp_field p) = false) (traitPolicies (pm s)) /\
  Forall (fun p => f_inMask (ap_field p) = false) (actionPolicies (pm s)).

(** How often an event occurs in a trace. *)
Definition occurrences (e : Event) (evs : list Event) : nat :=
  length (filter (fun x => x = e) evs).

(** The calls the action policies make, from index [i] on: every policy is
    evaluated, and its action runs when its condition triggers. *)
Fixpoint actionTrace (i : nat) (ps : list ActionPolicy) : list Event :=
  match ps with
  | [] => []
  | p :: ps' =>
      EvPolicy KAction i ::
      (if triggered (ap_cond p) (ap_field p) then [EvAction i] else [])
      ++ actionTrace (S i) ps'
  end.


(** The calls of one run of the policy manager. *)
Definition policyTrace (pm : policyManager) : list Event :=
  EvExecuteAll :: map (EvPolicy KTrait) (seq 0 (length (traitPolicies pm)))
               ++ actionTrace 0 (actionPolicies pm).

(** The fault lists the handler was called with, in order. *)
Definition handlerCalls (evs : list Event) : list (list Fault) :=
  omap (fun e => match e with EvToError fs => Some fs | _ => None end) evs.

(** Two calls are the same up to the order of the faults handed to the
    handler. *)
Definition sameCall (e1 e2 : Event) : Prop :=
  e1 = e2 \/
  exists f1 f2, e1 = EvToError f1 /\ e2 = EvToError f2 /\ f1 ≡ₚ f2.

(** The three hook methods and the slot each of them reads. *)
Definition hookMethod (h : Hook) : Ctx -> M Subject (option Fault) :=
  match h with
  | HInit => init
  | HSuccess => onSuccess
  | HPost => postValidation
  end.

Definition hookSlot (h : Hook) (s : Subject) : option Action :=
  match h with
  | HInit => initAction s
  | HSuccess => successAction s
  | HPost => postAction s
  end.

(** The Subject once [err] has made sure it has a fault handler. *)
Definition withHandler (s : Subject) : Subject :=
  match fh s with
  | None => set_fh (Some newDefaultFaultHandler) s
  | Some _ => s
  end.

(** The handler [err] ends up calling: the one that was set, or the
    default one. *)
Definition handlerOf (s : Subject) : FaultHandler :=
  default newDefaultFaultHandler (fh s).

End Soldr.

Arguments Action : clear implicits.
Arguments fieldProcessor : clear implicits.
Arguments ActionPolicy : clear implicits.
Arguments policyManager : clear implicits.
Arguments Subject : clear implicits.
Arguments Decl : clear implicits.

(** ** The messages of the test file *)

Module Propl.

Record Address : Type := mkAddress { Line1 : string; Line2 : string }.

Record User : Type :=
  mkUser { Id : string; FirstName : string; LastName : string;
           PrimaryAddress : option Address }.

Record Request : Type := mkRequest { GetUser : option User }.

Definition nonEmpty (s : string) : bool := negb (bool_decide (s = "")).

(** Modelled from the spec: the path resolver on these messages, as a table
    from path to accessor; an unknown path, or one below an absent
    message, is not set. *)
Definition isFieldSet (path : string) (m : Request) : bool :=
  match GetUser m with
  | None => false
  | Some u =>
      if bool_decide (path = "user") then true
      else if bool_decide (path = "user.id") then nonEmpty (Id u)
      else if bool_decide (path = "user.first_name") then nonEmpty (FirstName u)
      else if bool_decide (path = "user.last_name") then nonEmpty (LastName u)
      else if bool_decide (path = "user.primary_address") then
             bool_decide (is_Some (PrimaryAddress u))
      else if bool_decide (path = "user.primary_address.line1") then
             from_option (fun a => nonEmpty (Line1 a)) false (PrimaryAddress u)
      else if bool_decide (path = "user.primary_address.line2") then
             from_option (fun a => nonEmpty (Line2 a)) false (PrimaryAddress u)
      else false
  end.

Definition resolver : fieldProcessor Request := mkFieldProcessor isFieldSet.

Definition emptyUser : User := mkUser "" "" "" None.

End Propl.

(** A handler that reports no error whatever it is given. *)
Definition silentHandler : FaultHandler := mkFaultHandler (fun _ => None).

(** The handler of the test file: every fault on a line of its own, as
    [field: err]. *)
Definition MyErrResultHandler : FaultHandler :=
  mkFaultHandler (fun errs =>
    Some (foldl (fun errString e => errString +:+ FaultField e +:+ ": " +:+ FaultErr e +:+ "
") "" errs)).

(** ** The Subjects of the test file *)

Module Scenarios.
Import Propl.

Definition bob : Request :=
  mkRequest (Some (mkUser "" "bob" "" (Some (mkAddress "a" "b")))).

(** [authorizeUpdate] of the test file, on the id of the user. *)
Definition authorizeUpdate : Action Request unit := fun _ msg =>
  (msg, if bool_decide (from_option Id "" (GetUser msg) = "abc123") then None
        else Some "can only update user abc123").

(** An action that only fails. *)
Definition refuse : Action Request unit := fun _ msg => (msg, Some "refused").

(** The Subject of "it should validate non-zero" after its first rule. *)
Definition userOnlySubject : Subject Request unit :=
  final (chain [DNonZero "user" (APointer false)]
           (ForSubject resolver (mkRequest (Some emptyUser)) [])).

(** The Subject of "it should validate non-zero". *)
Definition nonZeroSubject : Subject Request unit :=
  final (chain [DNonZero "user" (APointer false);
                DNonZero "user.first_name" (AString "")]
           (ForSubject resolver (mkRequest (Some emptyUser)) [])).

(** The Subject of "it should run a custom action before request field
    validation": no fault handler is set. *)
Definition guardedSubject : Subject Request unit :=
  final (chain [DBeforeValidation authorizeUpdate;
                DNonZero "user.id" (AString "");
                DNonZero "some.fake" ANil;
                DNonZeroWhenInMask "user.first_name" (AString "bob");
                DNonZeroWhenInMask "user.last_name" (AString "");
                DNonZeroWhenInMask "user.primary_address" (APointer false)]
           (ForSubject resolver bob ["first_name"; "last_name"])).

(** The same Subject with the handler of the test file set. *)
Definition guardedSubjectWithHandler : Subject Request unit :=
  final (CustomFaultHandler MyErrResultHandler guardedSubject).

(** A rule that fails (the value is not zero, the message has no id)
    under a handler that reports nothing. *)
Definition silencedSubject : Subject Request unit :=
  final (chain [DCustomFaultHandler silentHandler;
                DNonZero "user.id" (AString "x")]
           (ForSubject resolver bob [])).

(** No rule, a success hook that fails, a handler that reports nothing. *)
Definition silencedSuccessSubject : Subject Request unit :=
  final (chain [DCustomFaultHandler silentHandler; DOnSuccess refuse]
           (ForSubject resolver bob [])).

(** No rule, a success hook that fails, the default handler. *)
Definition failingSuccessSubject : Subject Request unit :=
  final (chain [DOnSuccess refuse] (ForSubject resolver bob [])).

(** Two rules that fail, on two paths. *)
Definition twoFaultsSubject : Subject Request unit :=
  final (chain [DNonZero "user.id" (AString "x");
                DNonZero "user.last_name" (AString "y")]
           (ForSubject resolver bob [])).

(** One rule that fails, the default handler. *)
Definition oneFaultSubject : Subject Request unit :=
  final (chain [DNonZero "user.id" (AString "x")] (ForSubject resolver bob [])).

(** A user the hook of the test file lets through. *)
Definition authorizedBob : Request :=
  mkRequest (Some (mkUser "abc123" "bob" "" (Some (mkAddress "a" "b")))).

(** [doLogic] of the test file: an empty last name becomes "NA". *)
Definition doLogic : Action Request unit := fun _ msg =>
  (match GetUser msg with
   | Some u =>
       if bool_decide (LastName u = "") then
         mkRequest (Some (mkUser (Id u) (FirstName u) "NA" (PrimaryAddress u)))
       else msg
   | None => msg
   end, None).

(** The Subject of "it should run a custom action if validation
    successful", on a user the hook lets through. *)
Definition successSubject : Subject Request unit :=
  final (chain [DBeforeValidation authorizeUpdate;
                DNonZero "user.id" (AString "abc123");
                DNonZeroWhenInMask "user.first_name" (AString "bob");
                DNonZeroWhenInMask "user.last_name" (AString "");
                DNonZeroWhenInMask "user.primary_address" (APointer false);
                DOnSuccess doLogic]
           (ForSubject resolver authorizedBob ["first_name"; "last_name"])).

End Scenarios.

(** * Properties *)

Section Mask.
Context {Msg Ctx : Type}.
Implicit Types (s : Subject Msg Ctx) (path : string) (fieldMask : list string).

Lemma lookup_foldl_insert fieldMask (acc : gmap string ()) path :
  is_Some (foldl (fun paths f => <[f := tt]> paths) acc fieldMask !! path)
  <-> path ∈ fieldMask \/ is_Some (acc !! path).
Proof.
  revert acc. induction fieldMask as [|f fm IH]; intros acc; simpl.
  - rewrite elem_of_nil. tauto.
  - rewrite IH, elem_of_cons, lookup_insert_is_Some.
    destruct (decide (f = path)) as [->|Hne]; [tauto|].
    intuition congruence.
Qed.

Lemma getPathsFromMask_lookup fieldMask path :
  match getPathsFromMask fieldMask with
  | None => false
  | Some ps => bool_decide (is_Some (ps !! path))
  end = bool_decide (path ∈ fieldMask).
Proof.
  destruct fieldMask as [|f fm]; [by rewrite bool_decide_eq_false_2 by apply not_elem_of_nil|].
  unfold getPathsFromMask. apply bool_decide_ext.
  rewrite lookup_foldl_insert, lookup_empty, is_Some_alt. tauto.
Qed.

(** Mask membership is membership in the sequence given to [ForSubject]. *)
Lemma isFieldInMask_ForSubject fp (msg : Msg) fieldMask path :
  isFieldInMask (ForSubject (Ctx:=Ctx) fp msg fieldMask) path
  = bool_decide (path ∈ fieldMask).
Proof. unfold isFieldInMask, ForSubject; simpl. apply getPathsFromMask_lookup. Qed.

(** C9: the path sequence given to [ForSubject] is stored as a set, the
    keys of the path map being exactly the paths of the mask (none for an
    empty mask), and [isFieldInMask] only tests membership in that set; so
    mask membership on the Subject is membership of the path in the given
    sequence, and for every path it is the same for two masks with the same
    elements: for any permutation of the mask, and for the mask with its
    paths repeated. *)
Theorem isFieldInMask_mask_as_set fp (msg : Msg) (m1 : list string) :
  match paths (ForSubject (Ctx:=Ctx) fp msg m1) with
  | None => m1 = []
  | Some ps => dom ps = list_to_set m1
  end /\
  (forall s path,
     isFieldInMask s path
     = match paths s with
       | None => false
       | Some ps => bool_decide (path ∈ dom ps)
       end) /\
  (forall path,
     isFieldInMask (ForSubject (Ctx:=Ctx) fp msg m1) path = bool_decide (path ∈ m1)) /\
  (forall m2, (forall p, p ∈ m1 <-> p ∈ m2) ->
     forall path,
       isFieldInMask (ForSubject (Ctx:=Ctx) fp msg m1) path
       = isFieldInMask (ForSubject (Ctx:=Ctx) fp msg m2) path) /\
  (forall m2, m1 ≡ₚ m2 ->
     forall path,
       isFieldInMask (ForSubject (Ctx:=Ctx) fp msg m1) path
       = isFieldInMask (ForSubject (Ctx:=Ctx) fp msg m2) path) /\
  (forall path,
     isFieldInMask (ForSubject (Ctx:=Ctx) fp msg (m1 ++ m1)) path
     = isFieldInMask (ForSubject (Ctx:=Ctx) fp msg m1) path).
Proof.
  split; [|split; [|split; [|split; [|split]]]].
  - destruct m1 as [|f fm]; [reflexivity|].
    unfold ForSubject, getPathsFromMask; cbn [paths].
    apply set_eq. intros p. rewrite elem_of_dom, elem_of_list_to_set.
    rewrite lookup_foldl_insert, lookup_empty, is_Some_alt. tauto.
  - intros s path. unfold isFieldInMask. destruct (paths s) as [ps|]; [|reflexivity].
    apply bool_decide_ext. by rewrite elem_of_dom.
  - intros path. apply isFieldInMask_ForSubject.
  - intros m2 Hsame path. rewrite !isFieldInMask_ForSubject.
    apply bool_decide_ext, Hsame.
  - intros m2 Hp path. rewrite !isFieldInMask_ForSubject.
    apply bool_decide_ext. by rewrite Hp.
  - intros path. rewrite !isFieldInMask_ForSubject.
    apply bool_decide_ext. rewrite elem_of_app. tauto.
Qed.

Lemma isFieldInMask_permutation fp (msg : Msg) (m1 m2 : list string) path :
  m1 ≡ₚ m2 ->
  isFieldInMask (ForSubject (Ctx:=Ctx) fp msg m1) path
  = isFieldInMask (ForSubject (Ctx:=Ctx) fp msg m2) path.
Proof.
  intros Hp. rewrite !isFieldInMask_ForSubject.
  apply bool_decide_ext. by rewrite Hp.
Qed.

Lemma isFieldInMask_duplication fp (msg : Msg) (m : list string) path :
  isFieldInMask (ForSubject (Ctx:=Ctx) fp msg (m ++ m)) path
  = isFieldInMask (ForSubject (Ctx:=Ctx) fp msg m) path.
Proof.
  rewrite !isFieldInMask_ForSubject.
  apply bool_decide_ext. rewrite elem_of_app. tauto.
Qed.

End Mask.

Section Builder.
Context {Msg Ctx : Type}.
Implicit Types (s : Subject Msg Ctx) (path : string) (v : any)
  (act : Action Msg Ctx) (d : Decl Msg Ctx).

Lemma isFieldSet_nonzero s path v :
  isZero v = false ->
  isFieldSet v path false s = mkRes (Some (resolved s path)) s [EvResolve path].
Proof. intros Hz. unfold isFieldSet. rewrite Hz. reflexivity. Qed.

Lemma isFieldSet_zero s path v :
  isZero v = true ->
  isFieldSet v path false s = mkRes (Some true) s [].
Proof. intros Hz. unfold isFieldSet. rewrite Hz. reflexivity. Qed.

Lemma isFieldSet_forAction s path v :
  isFieldSet v path true s = mkRes (Some (resolved s path)) s [EvResolve path].
Proof. reflexivity. Qed.

(** C1, as the code has it: for a declaration made via [AssertNonZero] or
    [AssertNonZeroWhenInMask] whose supplied value is the zero value or nil,
    the path resolver is not consulted, and the presence recorded in the
    Field is [true], that is set, where the claim says not-set:
    [isFieldSet] returns [isZero] of the value. *)
Theorem AssertNonZero_zero_value_recorded_set s path v :
  isZero v = true ->
  (let r := AssertNonZero path v s in
   final r = set_pm (AddTraitPolicy
               (NewPolicy NotZeroTrait MustBeSet
                  (NewField path v (isFieldInMask s path) true)) (pm s)) s
   /\ events r = []) /\
  (let r := AssertNonZeroWhenInMask path v s in
   final r = set_pm (AddTraitPolicy
               (NewPolicy NotZeroTrait MustBeSetIfInMask
                  (NewField path v (isFieldInMask s path) true)) (pm s)) s
   /\ events r = []).
Proof.
  intros Hz.
  unfold AssertNonZero, AssertNonZeroWhenInMask, isFieldSet, bind, get; simpl.
  rewrite Hz. simpl. auto.
Qed.

(** With a non-zero value the resolver decides. *)
Lemma AssertNonZero_nonzero_value s path v :
  isZero v = false ->
  let r := AssertNonZero path v s in
  final r = set_pm (AddTraitPolicy
              (NewPolicy NotZeroTrait MustBeSet
                 (NewField path v (isFieldInMask s path) (resolved s path))) (pm s)) s
  /\ events r = [EvResolve path].
Proof.
  intros Hz. unfold AssertNonZero, isFieldSet, bind, get; simpl.
  rewrite Hz. simpl. auto.
Qed.

(** C6: for a declaration made via [AssertCustom] or
    [AssertCustomWhenInMask], on every path, the presence recorded in the
    Field is what the path resolver answers for the path on the message of
    the Subject; the resolver is consulted once, and nothing else is. *)
Theorem AssertCustom_presence_from_resolver s path act :
  (let r := AssertCustom path act s in
   outcome r = Some tt /\
   final r = set_pm (AddActionPolicy
               (NewActionPolicy MustBeSet
                  (NewField path ANil (isFieldInMask s path) (resolved s path)) act)
               (pm s)) s
   /\ events r = [EvResolve path]) /\
  (let r := AssertCustomWhenInMask path act s in
   outcome r = Some tt /\
   final r = set_pm (AddActionPolicy
               (NewActionPolicy MustBeSetIfInMask
                  (NewField path ANil (isFieldInMask s path) (resolved s path)) act)
               (pm s)) s
   /\ events r = [EvResolve path]).
Proof. repeat split. Qed.

(** *** Builder chains without a mask *)

Lemma declare_paths d s : paths (final (declare d s)) = paths s.
Proof.
  destruct d; try reflexivity;
    unfold declare, AssertNonZero, AssertNonZeroWhenInMask, isFieldSet, bind, get;
    simpl; destruct (isZero value); reflexivity.
Qed.

Lemma isFieldInMask_no_paths s path : paths s = None -> isFieldInMask s path = false.
Proof. unfold isFieldInMask. by intros ->. Qed.

Lemma declare_outOfMask d s :
  paths s = None -> outOfMask s -> outOfMask (final (declare d s)).
Proof.
  intros Hp [Ht Ha].
  destruct d; try (split; assumption);
    unfold declare, AssertNonZero, AssertNonZeroWhenInMask, AssertCustom,
      AssertCustomWhenInMask, isFieldSet, bind, get;
    simpl; try destruct (isZero value); simpl; split; simpl; try assumption;
    apply Forall_app; (split; [assumption|]);
    apply Forall_singleton; simpl; by apply isFieldInMask_no_paths.
Qed.

Lemma chain_no_mask (ds : list (Decl Msg Ctx)) s :
  paths s = None -> outOfMask s ->
  paths (final (chain ds s)) = None /\ outOfMask (final (chain ds s)).
Proof.
  revert s. induction ds as [|d ds IH]; intros s Hp Hout; [by split|].
  simpl. unfold bind.
  destruct (declare d s) as [[[]|] s1 ev1] eqn:Hd; simpl.
  - apply IH.
    + rewrite <- Hp. change s1 with (final (mkRes (Some ()) s1 ev1)).
      rewrite <- Hd. apply declare_paths.
    + change s1 with (final (mkRes (Some ()) s1 ev1)).
      rewrite <- Hd. by apply declare_outOfMask.
  - change s1 with (final (mkRes (@None unit) s1 ev1)). rewrite <- Hd. split.
    + rewrite <- Hp. apply declare_paths.
    + by apply declare_outOfMask.
Qed.

(** C10: on a Subject constructed with no mask paths, after any chain of
    builder calls, [isFieldInMask] is false on every path, every declared
    policy is on a field recorded with [inMask] false, and the trigger
    condition of every policy declared with [MustBeSetIfInMask] (the rules
    of [AssertNonZeroWhenInMask] and [AssertCustomWhenInMask]) is false. *)
Theorem no_mask_never_triggers fp (msg : Msg) (ds : list (Decl Msg Ctx)) :
  let s := final (chain ds (ForSubject fp msg [])) in
  (forall path, isFieldInMask s path = false) /\
  (forall p, p ∈ traitPolicies (pm s) ->
     f_inMask (tp_field p) = false /\
     (tp_cond p = MustBeSetIfInMask -> triggered (tp_cond p) (tp_field p) = false)) /\
  (forall p, p ∈ actionPolicies (pm s) ->
     f_inMask (ap_field p) = false /\
     (ap_cond p = MustBeSetIfInMask -> triggered (ap_cond p) (ap_field p) = false)).
Proof.
  intros s.
  destruct (chain_no_mask ds (ForSubject fp msg [])) as [Hp [Ht Ha]];
    [reflexivity | split; constructor |].
  fold s in Hp, Ht, Ha. split; [|split].
  - intros path. by apply isFieldInMask_no_paths.
  - intros p Hin. rewrite Forall_forall in Ht. specialize (Ht p Hin).
    split; [assumption|]. intros ->. exact Ht.
  - intros p Hin. rewrite Forall_forall in Ha. specialize (Ha p Hin).
    split; [assumption|]. intros ->. exact Ha.
Qed.

End Builder.

Section PolicyManager.
Context {Msg Ctx : Type}.
Implicit Types (msg : Msg) (ctx : Ctx) (acc : gmap string string).

Lemma occurrences_app e (l1 l2 : list Event) :
  occurrences e (l1 ++ l2) = occurrences e l1 + occurrences e l2.
Proof. unfold occurrences. by rewrite filter_app, length_app. Qed.

Lemma occurrences_cons e x (l : list Event) :
  occurrences e (x :: l) = (if decide (x = e) then 1 else 0) + occurrences e l.
Proof.
  unfold occurrences. rewrite filter_cons.
  destruct (decide (x = e)); reflexivity.
Qed.


Lemma occurrences_absent e (l : list Event) :
  Forall (fun x => x <> e) l -> occurrences e l = 0.
Proof.
  induction 1 as [|x l Hx _ IH]; [reflexivity|].
  rewrite occurrences_cons, IH. by destruct (decide (x = e)).
Qed.

(** The trait policies never fail to return, leave the message alone and
    evaluate every policy, in order. *)
Lemma executeTraitPolicies_run i (ps : list TraitPolicy) acc msg :
  exists acc',
    executeTraitPolicies i ps acc msg
    = mkRes (Some acc') msg (map (EvPolicy KTrait) (seq i (length ps))).
Proof.
  revert i acc. induction ps as [|p ps IH]; intros i acc; simpl.
  - by exists acc.
  - unfold bind, emit; simpl.
    edestruct (IH (S i)) as [acc' ->]. simpl. by exists acc'.
Qed.

Lemma runAction_run i (a : Action Msg Ctx) ctx msg :
  runAction i a ctx msg = mkRes (Some (a ctx msg).2) (a ctx msg).1 [EvAction i].
Proof. reflexivity. Qed.

(** The action policies never fail to return and make the calls of
    [actionTrace], whatever their actions answer. *)
Lemma executeActionPolicies_run ctx i (ps : list (ActionPolicy Msg Ctx)) acc msg :
  exists acc' msg',
    executeActionPolicies ctx i ps acc msg
    = mkRes (Some acc') msg' (actionTrace i ps).
Proof.
  revert i acc msg. induction ps as [|p ps IH]; intros i acc msg.
  - by exists acc, msg.
  - cbn [executeActionPolicies actionTrace]. unfold bind, emit, ret.
    destruct (triggered (ap_cond p) (ap_field p)); cbn.
    + destruct ((ap_action p ctx msg).2) as [e|]; cbn.
      all: edestruct (IH (S i)) as (acc' & msg' & Hrun); rewrite Hrun; cbn.
      all: by exists acc', msg'.
    + edestruct (IH (S i)) as (acc' & msg' & Hrun); rewrite Hrun; cbn.
      by exists acc', msg'.
Qed.

(** The whole run of the policy manager. *)
Lemma ExecuteAllPolicies_run (pm : policyManager Msg Ctx) ctx msg :
  exists all msg',
    ExecuteAllPolicies pm ctx msg
    = mkRes (Some all) msg' (policyTrace pm).
Proof.
  unfold ExecuteAllPolicies, bind at 1, emit; simpl. unfold bind.
  destruct (executeTraitPolicies_run 0 (traitPolicies pm) ∅ msg) as [acc ->]. simpl.
  destruct (executeActionPolicies_run ctx 0 (actionPolicies pm) acc msg)
    as (all & msg' & ->). simpl. by exists all, msg'.
Qed.

End PolicyManager.

Section Evaluation.
Context {Msg Ctx : Type}.
Implicit Types (s : Subject Msg Ctx) (ctx : Ctx) (ro : RangeOrder)
  (act : Action Msg Ctx) (f : list Fault).

Lemma bind_ok {S A B} (m : M S A) (k : A -> M S B) (st : S) a st1 ev1 :
  m st = mkRes (Some a) st1 ev1 ->
  bind m k st
  = mkRes (outcome (k a st1)) (final (k a st1)) (ev1 ++ events (k a st1)).
Proof. intros H. unfold bind. by rewrite H. Qed.

Lemma bind_panic {S A B} (m : M S A) (k : A -> M S B) (st : S) st1 ev1 :
  m st = mkRes None st1 ev1 -> bind m k st = mkRes None st1 ev1.
Proof. intros H. unfold bind. by rewrite H. Qed.

(** A hook slot: nothing happens when it is empty; otherwise the hook is
    called once, the message is what it leaves, and its failure becomes a
    request-scoped fault. *)
Lemma callHook_run h (slot : option (Action Msg Ctx)) ctx s :
  callHook h slot ctx s
  = match slot with
    | None => mkRes (Some None) s []
    | Some act =>
        mkRes (Some (RequestFault <$> (act ctx (message s)).2))
              (set_message (act ctx (message s)).1 s) [EvHook h]
    end.
Proof.
  destruct slot as [act|]; [|reflexivity].
  unfold callHook, bind, emit, get, put, ret; cbn.
  by destruct ((act ctx (message s)).2).
Qed.

Lemma init_run ctx s :
  init ctx s
  = match initAction s with
    | None => mkRes (Some None) s []
    | Some act =>
        mkRes (Some (RequestFault <$> (act ctx (message s)).2))
              (set_message (act ctx (message s)).1 s) [EvHook HInit]
    end.
Proof.
  unfold init. rewrite (bind_ok get _ s s s []) by reflexivity.
  rewrite callHook_run. by destruct (initAction s).
Qed.

Lemma onSuccess_run ctx s :
  onSuccess ctx s
  = match successAction s with
    | None => mkRes (Some None) s []
    | Some act =>
        mkRes (Some (RequestFault <$> (act ctx (message s)).2))
              (set_message (act ctx (message s)).1 s) [EvHook HSuccess]
    end.
Proof.
  unfold onSuccess. rewrite (bind_ok get _ s s s []) by reflexivity.
  rewrite callHook_run. by destruct (successAction s).
Qed.

(** [s.fh.ToError(f)] panics exactly when no handler is set. *)
Lemma callToError_run f s :
  callToError f s
  = match fh s with
    | None => mkRes None s []
    | Some h => mkRes (Some (ToError h f)) s [EvToError f]
    end.
Proof. unfold callToError, bind, get; cbn. by destruct (fh s). Qed.

(** [err]: the handler is set to the default one if there is none; an
    empty list gives nil without a call of the handler, any other list is
    handed whole to the handler, once. *)
Lemma err_run f s :
  err f s
  = mkRes (Some (match f with [] => None | _ => ToError (handlerOf s) f end))
          (withHandler s)
          (match f with [] => [] | _ => [EvToError f] end).
Proof.
  unfold err, withHandler, handlerOf, callToError.
  destruct f as [|x f];
    [rewrite bool_decide_eq_true_2 by done | rewrite bool_decide_eq_false_2 by done];
    unfold bind, get, put, ret, emit, panic;
    destruct (fh s) as [h|] eqn:Hfh; simpl; rewrite ?Hfh; simpl; rewrite ?Hfh;
    reflexivity.
Qed.

Lemma collectFaults_run ro ctx s all m2 ev2 :
  ExecuteAllPolicies (pm s) ctx (message s) = mkRes (Some all) m2 ev2 ->
  collectFaults ro ctx s
  = match fieldFaults ro all with
    | [] =>
        let r := onSuccess ctx (set_message m2 s) in
        mkRes (Some (match outcome r with Some (Some sf) => [sf] | _ => [] end))
              (final r) (ev2 ++ events r)
    | fs => mkRes (Some fs) (set_message m2 s) ev2
    end.
Proof.
  intros Hall. unfold collectFaults.
  rewrite (bind_ok get _ s s s []) by reflexivity.
  rewrite (bind_ok _ _ s all (set_message m2 s) ev2)
    by (unfold zoom; by rewrite Hall).
  cbv beta zeta. destruct (fieldFaults ro all) as [|x fs].
  - rewrite bool_decide_eq_true_2 by done. unfold bind.
    rewrite onSuccess_run.
    destruct (successAction (set_message m2 s)) as [act|]; simpl.
    + destruct ((act ctx m2).2); simpl; by rewrite ?app_nil_r.
    + by rewrite ?app_nil_r.
  - rewrite bool_decide_eq_false_2 by done. simpl. by rewrite app_nil_r.
Qed.

Lemma set_message_same s : set_message (message s) s = s.
Proof. by destruct s. Qed.

(** A hook only ever changes the message of the Subject. *)
Lemma callHook_final h (slot : option (Action Msg Ctx)) ctx s :
  final (callHook h slot ctx s) = set_message (message (final (callHook h slot ctx s))) s.
Proof.
  rewrite callHook_run. destruct slot; simpl; [reflexivity|].
  by rewrite set_message_same.
Qed.

Lemma init_passed ctx s s1 ev1 :
  init ctx s = mkRes (Some None) s1 ev1 ->
  s1 = set_message (message s1) s /\ Forall (fun e => e = EvHook HInit) ev1.
Proof.
  rewrite init_run. destruct (initAction s) as [act|].
  - intros [= _ <- <-]. split; [reflexivity | by repeat constructor].
  - intros [= <- <-]. split; [by rewrite set_message_same | constructor].
Qed.

(** [Evaluate] when the pre-hook fails: the handler, if there is one, is
    called on the one request fault, and nothing else happens. *)
Lemma Evaluate_init_failed ro ctx s act e :
  initAction s = Some act -> (act ctx (message s)).2 = Some e ->
  Evaluate ro ctx s
  = match fh s with
    | None => mkRes None (set_message (act ctx (message s)).1 s) [EvHook HInit]
    | Some h =>
        mkRes (Some (ToError h [RequestFault e]))
              (set_message (act ctx (message s)).1 s)
              [EvHook HInit; EvToError [RequestFault e]]
    end.
Proof.
  intros Hact He. unfold Evaluate.
  erewrite bind_ok by (rewrite init_run, Hact, He; reflexivity).
  cbn -[callToError]. rewrite callToError_run. simpl. by destruct (fh s).
Qed.

(** [Evaluate] when the pre-hook is absent or succeeds: the policy manager
    runs once on all policies; the success hook runs when no field fault
    came out; the faults, if any, are handed to the handler. *)
Lemma Evaluate_init_passed ro ctx s s1 ev1 :
  init ctx s = mkRes (Some None) s1 ev1 ->
  exists all m2 sf s3 ev3,
    ExecuteAllPolicies (pm s) ctx (message s1) = mkRes (Some all) m2 (policyTrace (pm s))
    /\ (match fieldFaults ro all with
        | [] => onSuccess ctx (set_message m2 s1) = mkRes (Some sf) s3 ev3
        | _ => sf = None /\ s3 = set_message m2 s1 /\ ev3 = []
        end)
    /\ Forall (fun e => e = EvHook HSuccess) ev3
    /\ s3 = set_message (message s3) s
    /\ Evaluate ro ctx s
       = mkRes (Some (match fieldFaults ro all ++ option_list sf with
                      | [] => None
                      | l => ToError (handlerOf s) l
                      end))
               (withHandler s3)
               (ev1 ++ policyTrace (pm s) ++ ev3
                    ++ match fieldFaults ro all ++ option_list sf with
                       | [] => []
                       | l => [EvToError l]
                       end).
Proof.
  intros Hinit. destruct (init_passed _ _ _ _ Hinit) as [Hs1 _].
  assert (Hpm : pm s1 = pm s) by (by rewrite Hs1).
  destruct (ExecuteAllPolicies_run (pm s1) ctx (message s1)) as (all & m2 & Hall).
  pose proof (collectFaults_run ro ctx s1 all m2 _ Hall) as Hcol.
  assert (Hshape : forall fs s3 ev3,
            collectFaults ro ctx s1 = mkRes (Some fs) s3 ev3 ->
            s3 = set_message (message s3) s ->
            Evaluate ro ctx s
            = mkRes (Some (match fs with [] => None | l => ToError (handlerOf s) l end))
                    (withHandler s3)
                    (ev1 ++ ev3 ++ match fs with [] => [] | l => [EvToError l] end)).
  { intros fs s3 ev3 Hc Hs3. unfold Evaluate.
    erewrite bind_ok by exact Hinit. cbv beta iota.
    erewrite bind_ok by exact Hc. rewrite err_run. simpl.
    replace (handlerOf s3) with (handlerOf s) by (rewrite Hs3; reflexivity).
    reflexivity. }
  rewrite Hpm in Hall. exists all, m2.
  destruct (fieldFaults ro all) as [|x fs] eqn:Hfs.
  - rewrite onSuccess_run in Hcol. rewrite onSuccess_run.
    change (successAction (set_message m2 s1)) with (successAction s1) in *.
    destruct (successAction s1) as [act|]; simpl in Hcol.
    + exists (RequestFault <$> (act ctx m2).2),
             (set_message (act ctx m2).1 (set_message m2 s1)), [EvHook HSuccess].
      split; [exact Hall|]. split; [reflexivity|].
      split; [by repeat constructor|]. split; [by rewrite Hs1|].
      rewrite (Hshape _ _ _ Hcol) by (by rewrite Hs1).
      rewrite Hpm. destruct ((act ctx m2).2); simpl; by rewrite <- ?app_assoc.
    + exists None, (set_message m2 s1), [].
      split; [exact Hall|]. split; [reflexivity|].
      split; [constructor|]. split; [by rewrite Hs1|].
      rewrite (Hshape _ _ _ Hcol) by (by rewrite Hs1).
      rewrite Hpm. simpl. by rewrite ?app_nil_r.
  - exists None, (set_message m2 s1), [].
    split; [exact Hall|]. split; [done|].
    split; [constructor|]. split; [by rewrite Hs1|].
    rewrite (Hshape _ _ _ Hcol) by (by rewrite Hs1).
    rewrite Hpm. simpl. by rewrite ?app_nil_r.
Qed.

End Evaluation.

Section Counting.
Context {Msg Ctx : Type}.








End Counting.

Section Orchestration.
Context {Msg Ctx : Type}.
Implicit Types (s : Subject Msg Ctx) (ctx : Ctx) (ro : RangeOrder)
  (act : Action Msg Ctx).

Lemma policyTrace_no_hook (pm : policyManager Msg Ctx) h :
  occurrences (EvHook h) (policyTrace pm) = 0.
Proof.
  apply occurrences_absent. unfold policyTrace.
  constructor; [discriminate|]. apply Forall_app. split.
  - apply Forall_map, Forall_forall. intros x _. discriminate.
  - generalize 0. induction (actionPolicies pm) as [|p ps IH]; intros j; simpl;
      [constructor|].
    constructor; [discriminate|]. apply Forall_app. split; [|apply IH].
    destruct (triggered _ _); repeat constructor; discriminate.
Qed.

Lemma policyTrace_no_handler (pm : policyManager Msg Ctx) :
  handlerCalls (policyTrace pm) = [].
Proof.
  unfold policyTrace, handlerCalls. simpl. rewrite omap_app.
  assert (H1 : forall l, omap (fun e => match e with EvToError fs => Some fs | _ => None end)
                  (map (EvPolicy KTrait) l) = []).
  { induction l as [|x l IH]; [reflexivity | exact IH]. }
  rewrite H1. simpl. generalize 0.
  induction (actionPolicies pm) as [|p ps IH]; intros j; simpl; [reflexivity|].
  rewrite omap_app, IH. by destruct (triggered _ _).
Qed.

(** C2, as the code has it on a Subject without a fault handler: when the
    BeforeValidation hook is set and returns an error, no policy runs (the
    policy manager is not called), but [Evaluate] returns no error: it
    calls [ToError] on the nil handler and panics. [ForSubject] sets no
    handler, and only [err], which this path does not take, installs the
    default one. *)
Theorem Evaluate_init_failure_without_handler ro ctx s act e :
  initAction s = Some act ->
  (act ctx (message s)).2 = Some e ->
  fh s = None ->
  outcome (Evaluate ro ctx s) = None /\
  events (Evaluate ro ctx s) = [EvHook HInit].
Proof.
  intros Hact He Hfh. rewrite (Evaluate_init_failed ro ctx s act e Hact He), Hfh.
  by split.
Qed.

(** X9: with a fault handler set, a failing BeforeValidation hook is
    short-circuited as intended: the hook runs once, no policy is
    evaluated, the success hook is not called, the handler is called once
    on the one request fault, and the result is what it makes of it. *)
Lemma Evaluate_init_failure_with_handler ro ctx s act e h :
  initAction s = Some act ->
  (act ctx (message s)).2 = Some e ->
  fh s = Some h ->
  outcome (Evaluate ro ctx s) = Some (ToError h [RequestFault e]) /\
  events (Evaluate ro ctx s) = [EvHook HInit; EvToError [RequestFault e]].
Proof.
  intros Hact He Hfh. rewrite (Evaluate_init_failed ro ctx s act e Hact He), Hfh.
  by split.
Qed.



End Orchestration.

Section Results.
Context {Msg Ctx : Type}.
Implicit Types (s : Subject Msg Ctx) (ctx : Ctx) (ro : RangeOrder)
  (act : Action Msg Ctx).

Lemma handlerCalls_app (l1 l2 : list Event) :
  handlerCalls (l1 ++ l2) = handlerCalls l1 ++ handlerCalls l2.
Proof. apply omap_app. Qed.

Lemma handlerCalls_hooks h (l : list Event) :
  Forall (fun e => e = EvHook h) l -> handlerCalls l = [].
Proof. induction 1 as [|x l -> _ IH]; [reflexivity | exact IH]. Qed.

Lemma occurrences_hooks h h' (l : list Event) :
  h <> h' -> Forall (fun e => e = EvHook h) l -> occurrences (EvHook h') l = 0.
Proof.
  intros Hne Hl. apply occurrences_absent.
  eapply Forall_impl; [exact Hl|]. intros x -> [= ?]. by apply Hne.
Qed.

(** What [collectFaults] leaves: it returns, only the message of the
    Subject may have changed, and the handler was not called. *)
Lemma collectFaults_shape ro ctx s :
  exists fs s2 ev2,
    collectFaults ro ctx s = mkRes (Some fs) s2 ev2
    /\ s2 = set_message (message s2) s
    /\ handlerCalls ev2 = [].
Proof.
  destruct (ExecuteAllPolicies_run (pm s) ctx (message s)) as (all & m2 & Hall).
  rewrite (collectFaults_run ro ctx s all m2 _ Hall).
  destruct (fieldFaults ro all) as [|x fs].
  - rewrite onSuccess_run.
    change (successAction (set_message m2 s)) with (successAction s).
    destruct (successAction s) as [act|]; cbv zeta; cbn [outcome final events].
    + eexists _, _, _. split; [reflexivity|]. split; [reflexivity|].
      rewrite handlerCalls_app, policyTrace_no_handler. reflexivity.
    + eexists _, _, _. split; [reflexivity|]. split; [reflexivity|].
      rewrite handlerCalls_app, policyTrace_no_handler. reflexivity.
  - eexists _, _, _. split; [reflexivity|]. split; [reflexivity|].
    apply policyTrace_no_handler.
Qed.

(** C4, amended: when the BeforeValidation hook is absent or succeeds,
    [Evaluate] returns nil if the collected fault list is empty, without
    calling the handler; if it is not empty, it returns what the fault
    handler (the one set, or the default one) makes of the whole list, in
    one call. So it returns nil exactly when the list is empty provided
    the handler turns every non-empty list into an error. *)
Theorem Evaluate_returns_handler_result ro ctx s s1 ev1 fs s2 ev2 :
  init ctx s = mkRes (Some None) s1 ev1 ->
  collectFaults ro ctx s1 = mkRes (Some fs) s2 ev2 ->
  let r := Evaluate ro ctx s in
  outcome r = Some (match fs with [] => None | _ => ToError (handlerOf s) fs end) /\
  handlerCalls (events r) = (match fs with [] => [] | _ => [fs] end) /\
  ((forall l, l <> [] -> ToError (handlerOf s) l <> None) ->
   (outcome r = Some None <-> fs = [])).
Proof.
  intros Hinit Hcol r.
  destruct (init_passed _ _ _ _ Hinit) as [Hs1 Hev1].
  destruct (collectFaults_shape ro ctx s1) as (fs' & s2' & ev2' & Hc & Hs2 & Hcalls).
  rewrite Hcol in Hc. injection Hc as <- <- <-.
  assert (Hh : handlerOf s2 = handlerOf s) by (rewrite Hs2, Hs1; reflexivity).
  assert (Hr : r = mkRes (Some (match fs with [] => None | _ => ToError (handlerOf s) fs end))
                     (withHandler s2)
                     (ev1 ++ ev2 ++ match fs with [] => [] | _ => [EvToError fs] end)).
  { subst r. unfold Evaluate. erewrite bind_ok by exact Hinit. cbv beta iota.
    erewrite bind_ok by exact Hcol. rewrite err_run, Hh. reflexivity. }
  rewrite Hr. cbn [outcome events]. split; [reflexivity|]. split.
  - rewrite !handlerCalls_app, (handlerCalls_hooks HInit ev1 Hev1), Hcalls.
    by destruct fs.
  - intros Hsound. destruct fs as [|x fs]; [done|].
    split; [|done]. intros [= Hnil]. exfalso. by apply (Hsound (x :: fs)).
Qed.

Lemma init_postAction ctx s a :
  init ctx (set_postAction a s)
  = mkRes (outcome (init ctx s)) (set_postAction a (final (init ctx s)))
          (events (init ctx s)).
Proof.
  rewrite !init_run. change (initAction (set_postAction a s)) with (initAction s).
  by destruct (initAction s).
Qed.

Lemma onSuccess_postAction ctx s a :
  onSuccess ctx (set_postAction a s)
  = mkRes (outcome (onSuccess ctx s)) (set_postAction a (final (onSuccess ctx s)))
          (events (onSuccess ctx s)).
Proof.
  rewrite !onSuccess_run.
  change (successAction (set_postAction a s)) with (successAction s).
  by destruct (successAction s).
Qed.

Lemma collectFaults_postAction ro ctx s a :
  collectFaults ro ctx (set_postAction a s)
  = mkRes (outcome (collectFaults ro ctx s))
          (set_postAction a (final (collectFaults ro ctx s)))
          (events (collectFaults ro ctx s)).
Proof.
  destruct (ExecuteAllPolicies_run (pm s) ctx (message s)) as (all & m2 & Hall).
  rewrite (collectFaults_run ro ctx s all m2 _ Hall).
  rewrite (collectFaults_run ro ctx (set_postAction a s) all m2 _ Hall).
  destruct (fieldFaults ro all) as [|x fs]; [|reflexivity].
  cbv zeta.
  change (set_message m2 (set_postAction a s)) with (set_postAction a (set_message m2 s)).
  rewrite onSuccess_postAction. reflexivity.
Qed.

Lemma err_postAction (f : list Fault) s a :
  err f (set_postAction a s)
  = mkRes (outcome (err f s)) (set_postAction a (final (err f s))) (events (err f s)).
Proof.
  rewrite !err_run. cbn [outcome final events]. unfold withHandler.
  change (fh (set_postAction a s)) with (fh s). by destruct (fh s).
Qed.

Lemma Evaluate_postAction ro ctx s (a : option (Action Msg Ctx)) :
  Evaluate ro ctx (set_postAction a s)
  = mkRes (outcome (Evaluate ro ctx s))
          (set_postAction a (final (Evaluate ro ctx s)))
          (events (Evaluate ro ctx s)).
Proof.
  pose proof (init_postAction ctx s a) as Hi'.
  destruct (init ctx s) as [[[f|]|] s1 ev1] eqn:Hi; cbn [outcome final events] in Hi'.
  - unfold Evaluate. rewrite (bind_ok _ _ _ _ _ _ Hi), (bind_ok _ _ _ _ _ _ Hi').
    cbv beta iota. rewrite !callToError_run.
    change (fh (set_postAction a s1)) with (fh s1). by destruct (fh s1).
  - unfold Evaluate. rewrite (bind_ok _ _ _ _ _ _ Hi), (bind_ok _ _ _ _ _ _ Hi').
    cbv beta iota.
    pose proof (collectFaults_postAction ro ctx s1 a) as Hc'.
    destruct (collectFaults ro ctx s1) as [[fs|] s2 ev2] eqn:Hc;
      cbn [outcome final events] in Hc'.
    + rewrite (bind_ok _ _ _ _ _ _ Hc), (bind_ok _ _ _ _ _ _ Hc').
      rewrite err_postAction. reflexivity.
    + rewrite (bind_panic _ _ _ _ _ Hc), (bind_panic _ _ _ _ _ Hc'). reflexivity.
  - unfold Evaluate. rewrite (bind_panic _ _ _ _ _ Hi), (bind_panic _ _ _ _ _ Hi').
    reflexivity.
Qed.

(** C8: [Evaluate] never calls the post hook, and its result, its calls
    and the Subject it leaves are the same whatever the post hook is. *)
Theorem Evaluate_never_calls_postAction ro ctx s (a : option (Action Msg Ctx)) :
  let r := Evaluate ro ctx s in
  let r' := Evaluate ro ctx (set_postAction a s) in
  occurrences (EvHook HPost) (events r) = 0 /\
  outcome r' = outcome r /\
  events r' = events r /\
  final r' = set_postAction a (final r).
Proof.
  intros r r'. split.
  - subst r. pose proof (init_run ctx s) as Hi.
    destruct (initAction s) as [act|] eqn:Hact;
      [destruct ((act ctx (message s)).2) as [e|] eqn:He|].
    + rewrite (Evaluate_init_failed ro ctx s act e Hact He).
      by destruct (fh s).
    + simpl in Hi.
      destruct (Evaluate_init_passed ro ctx s _ _ Hi)
        as (all & m2 & sf & s3 & ev3 & _ & _ & Hev3 & _ & ->).
      cbn [events]. rewrite !occurrences_app, policyTrace_no_hook.
      rewrite (occurrences_hooks HSuccess HPost ev3) by done.
      by destruct (fieldFaults ro all ++ option_list sf).
    + destruct (Evaluate_init_passed ro ctx s _ _ Hi)
        as (all & m2 & sf & s3 & ev3 & _ & _ & Hev3 & _ & ->).
      cbn [events]. rewrite !occurrences_app, policyTrace_no_hook.
      rewrite (occurrences_hooks HSuccess HPost ev3) by done.
      by destruct (fieldFaults ro all ++ option_list sf).
  - subst r r'. rewrite Evaluate_postAction. by split.
Qed.

End Results.

Section SuccessHook.
Context {Msg Ctx : Type}.
Implicit Types (s : Subject Msg Ctx) (ctx : Ctx) (ro : RangeOrder)
  (act : Action Msg Ctx).

Lemma occurrences_pos e (l : list Event) : e ∈ l -> 0 < occurrences e l.
Proof.
  induction 1 as [x l|x y l _ IH]; rewrite occurrences_cons.
  - destruct (decide (x = x)); [lia | done].
  - lia.
Qed.

(** C5, amended: [Evaluate] calls the OnSuccess hook at most once, and only
    when the BeforeValidation hook is absent or succeeded and the policies
    produced no field fault. If the hook then returns an error, the
    handler is called once, on the one request-scoped fault made from that
    error and on no field fault, and [Evaluate] returns what the handler
    makes of it: with the default handler a non-nil error, with a handler
    of the caller whatever that handler answers. *)
Theorem onSuccess_only_without_field_faults ro ctx s :
  let r := Evaluate ro ctx s in
  occurrences (EvHook HSuccess) (events r) <= 1 /\
  (EvHook HSuccess ∈ events r ->
   exists s1 ev1 all m2 act,
     init ctx s = mkRes (Some None) s1 ev1 /\
     ExecuteAllPolicies (pm s) ctx (message s1)
       = mkRes (Some all) m2 (policyTrace (pm s)) /\
     fieldFaults ro all = [] /\
     successAction s = Some act /\
     forall e, (act ctx m2).2 = Some e ->
       handlerCalls (events r) = [[RequestFault e]] /\
       outcome r = Some (ToError (handlerOf s) [RequestFault e]) /\
       (fh s = None -> outcome r = Some (Some (renderFault (RequestFault e))))).
Proof.
  intros r. subst r.
  destruct (init ctx s) as [[[f|]|] s1 ev1] eqn:Hi.
  - (* the pre-hook failed *)
    pose proof Hi as Hi'. rewrite init_run in Hi'.
    destruct (initAction s) as [act|] eqn:Hact; [|discriminate].
    destruct ((act ctx (message s)).2) as [e|] eqn:He; [|discriminate].
    rewrite (Evaluate_init_failed ro ctx s act e Hact He).
    destruct (fh s); cbn [events]; (split; [vm_compute; lia|]).
    + intros Hin. apply occurrences_pos in Hin. vm_compute in Hin; lia.
    + intros Hin. apply occurrences_pos in Hin. vm_compute in Hin; lia.
  - (* the pre-hook is absent or succeeded *)
    destruct (init_passed _ _ _ _ Hi) as [Hs1 Hev1].
    destruct (Evaluate_init_passed ro ctx s s1 ev1 Hi)
      as (all & m2 & sf & s3 & ev3 & Hall & Hsucc & Hev3 & Hs3 & Hrun).
    assert (Hocc : occurrences (EvHook HSuccess) (events (Evaluate ro ctx s))
                   = occurrences (EvHook HSuccess) ev3).
    { rewrite Hrun. cbn [events]. rewrite !occurrences_app, policyTrace_no_hook.
      rewrite (occurrences_hooks HInit HSuccess ev1) by done.
      destruct (fieldFaults ro all ++ option_list sf); vm_compute occurrences at 2; lia. }
    destruct (fieldFaults ro all) as [|x fs] eqn:Hfs.
    + rewrite onSuccess_run in Hsucc.
      change (successAction (set_message m2 s1)) with (successAction s1) in Hsucc.
      replace (successAction s1) with (successAction s) in Hsucc
        by (rewrite Hs1; reflexivity).
      destruct (successAction s) as [act|] eqn:Hact.
      * injection Hsucc as <- <- <-. split; [rewrite Hocc; vm_compute; lia|].
        intros _. exists s1, ev1, all, m2, act.
        do 4 (split; [done|]). intros e He.
        rewrite Hrun. cbn [outcome events message set_message].
        rewrite He. cbn [fmap option_fmap option_map option_list app].
        split; [|split].
        -- rewrite !handlerCalls_app, (handlerCalls_hooks HInit ev1 Hev1).
           rewrite policyTrace_no_handler. reflexivity.
        -- reflexivity.
        -- intros Hfh. unfold handlerOf. rewrite Hfh. reflexivity.
      * injection Hsucc as <- <- <-. split; [rewrite Hocc; vm_compute; lia|].
        intros Hin. apply occurrences_pos in Hin. rewrite Hocc in Hin.
        vm_compute in Hin; lia.
    + destruct Hsucc as (-> & -> & ->). split; [rewrite Hocc; vm_compute; lia|].
      intros Hin. apply occurrences_pos in Hin. rewrite Hocc in Hin.
      vm_compute in Hin; lia.
  - (* [init] never panics *)
    rewrite init_run in Hi. by destruct (initAction s).
Qed.

End SuccessHook.

Section Determinism.
Context {Msg Ctx : Type}.
Implicit Types (s : Subject Msg Ctx) (ctx : Ctx) (ro : RangeOrder).

Lemma sameCall_refl (l : list Event) : Forall2 sameCall l l.
Proof. induction l; constructor; [by left | done]. Qed.

Lemma fieldFaults_fair ro1 ro2 (all : gmap string string) :
  fair ro1 -> fair ro2 -> fieldFaults ro1 all ≡ₚ fieldFaults ro2 all.
Proof.
  intros H1 H2. unfold fieldFaults. apply fmap_Permutation.
  by rewrite (H1 _), (H2 _).
Qed.

(** C7, amended: two [Evaluate] calls on the same Subject, under two
    iteration orders of the fault mapping, leave the Subject in the same
    state and make the same calls in the same order, except that the fault
    lists they hand to the handler are permutations of one another. Their
    results are equal whenever the handler answers the same on every
    reordering of the faults it is handed, so whenever it does not depend
    on the order of faults at all, and, whatever the handler, whenever at
    most one fault is handed to it. *)
Theorem Evaluate_deterministic_up_to_fault_order ro1 ro2 ctx s :
  fair ro1 -> fair ro2 ->
  let r1 := Evaluate ro1 ctx s in
  let r2 := Evaluate ro2 ctx s in
  let handed := concat (handlerCalls (events r1)) in
  final r1 = final r2 /\
  Forall2 sameCall (events r1) (events r2) /\
  handed ≡ₚ concat (handlerCalls (events r2)) /\
  ((forall l, l ≡ₚ handed -> ToError (handlerOf s) l = ToError (handlerOf s) handed) ->
   outcome r1 = outcome r2) /\
  ((forall l1 l2, l1 ≡ₚ l2 ->
      ToError (handlerOf s) l1 = ToError (handlerOf s) l2) ->
   outcome r1 = outcome r2) /\
  (length handed <= 1 -> outcome r1 = outcome r2).
Proof.
  intros Hf1 Hf2 r1 r2 handed.
  assert (Hsame : r1 = r2 ->
    final r1 = final r2 /\
    Forall2 sameCall (events r1) (events r2) /\
    handed ≡ₚ concat (handlerCalls (events r2)) /\
    ((forall l, l ≡ₚ handed -> ToError (handlerOf s) l = ToError (handlerOf s) handed) ->
     outcome r1 = outcome r2) /\
    ((forall l1 l2, l1 ≡ₚ l2 ->
        ToError (handlerOf s) l1 = ToError (handlerOf s) l2) ->
     outcome r1 = outcome r2) /\
    (length handed <= 1 -> outcome r1 = outcome r2)).
  { intros Heq. subst handed. rewrite <- Heq.
    split; [done|]. split; [apply sameCall_refl|]. by repeat split. }
  destruct (init ctx s) as [[[f|]|] s1 ev1] eqn:Hi.
  - apply Hsame. subst r1 r2.
    pose proof Hi as Hi'. rewrite init_run in Hi'.
    destruct (initAction s) as [act|] eqn:Hact; [|discriminate].
    destruct ((act ctx (message s)).2) as [e|] eqn:He; [|discriminate].
    by rewrite !(Evaluate_init_failed _ ctx s act e Hact He).
  - destruct (init_passed _ _ _ _ Hi) as [_ Hev1].
    destruct (Evaluate_init_passed ro1 ctx s s1 ev1 Hi)
      as (all & m2 & sf & s3 & ev3 & Hall & Hsucc & _ & _ & Hr1).
    destruct (Evaluate_init_passed ro2 ctx s s1 ev1 Hi)
      as (all' & m2' & sf' & s3' & ev3' & Hall' & Hsucc' & _ & _ & Hr2).
    rewrite Hall in Hall'. injection Hall' as <- <-.
    pose proof (fieldFaults_fair ro1 ro2 all Hf1 Hf2) as Hperm.
    destruct (fieldFaults ro1 all) as [|x fs]; destruct (fieldFaults ro2 all) as [|y fs'].
    + apply Hsame. subst r1 r2. rewrite Hr1, Hr2.
      rewrite Hsucc in Hsucc'. by injection Hsucc' as <- <- <-.
    + by apply Permutation_nil_cons in Hperm.
    + symmetry in Hperm. by apply Permutation_nil_cons in Hperm.
    + destruct Hsucc as (-> & -> & ->). destruct Hsucc' as (-> & -> & ->).
      assert (Hhanded : handed = x :: fs).
      { subst handed r1. rewrite Hr1. cbn [events option_list].
        rewrite !handlerCalls_app, policyTrace_no_handler,
          (handlerCalls_hooks _ _ Hev1). simpl. by rewrite !app_nil_r. }
      assert (Hhanded' : concat (handlerCalls (events r2)) = y :: fs').
      { subst r2. rewrite Hr2. cbn [events option_list].
        rewrite !handlerCalls_app, policyTrace_no_handler,
          (handlerCalls_hooks _ _ Hev1). simpl. by rewrite !app_nil_r. }
      rewrite Hhanded, Hhanded'. subst r1 r2. rewrite Hr1, Hr2.
      cbn [outcome final events option_list app]. rewrite !app_nil_r.
      split; [done|]. split; [|split; [exact Hperm|split; [|split]]].
      * apply Forall2_app; [apply sameCall_refl|].
        apply Forall2_app; [apply sameCall_refl|].
        constructor; [|constructor]. right. by eexists _, _.
      * intros Hh. f_equal. symmetry. apply Hh. by symmetry.
      * intros Hh. f_equal. by apply Hh.
      * simpl. intros Hlen. destruct fs as [|z fs]; [|simpl in Hlen; lia].
        apply Permutation_singleton_l in Hperm. by rewrite Hperm.
  - rewrite init_run in Hi. by destruct (initAction s).
Qed.

End Determinism.

(** * The properties on the Subjects of the test file *)

Section OnScenarios.
Import Propl Scenarios.

Lemma fair_id : fair id.
Proof. by intros l. Qed.

Lemma fair_reverse : fair reverse.
Proof. intros l. apply reverse_Permutation. Qed.

Lemma isFieldInMask_mask_as_set_witness :
  (forall p : string, p ∈ ["a"; "b"] <-> p ∈ ["b"; "a"; "a"]) /\
  isFieldInMask (ForSubject (Ctx:=unit) resolver bob ["a"; "b"]) "a"
  = isFieldInMask (ForSubject (Ctx:=unit) resolver bob ["b"; "a"; "a"]) "a".
Proof.
  assert (H : forall p : string, p ∈ ["a"; "b"] <-> p ∈ ["b"; "a"; "a"]).
  { intros p. rewrite !elem_of_cons, elem_of_nil. tauto. }
  split; [exact H|].
  exact (proj1 (proj2 (proj2 (proj2
           (isFieldInMask_mask_as_set (Ctx:=unit) resolver bob ["a"; "b"]))))
           ["b"; "a"; "a"] H "a").
Defined.

(** Scenario A of the test file: the rule on the empty first name records
    the field as set. *)
Lemma AssertNonZero_zero_value_recorded_set_witness :
  isZero (AString "") = true /\
  (let r := AssertNonZero "user.first_name" (AString "") userOnlySubject in
   f_isSet <$> (tp_field <$> last (traitPolicies (pm (final r)))) = Some true /\
   events r = []).
Proof.
  split; [reflexivity|].
  destruct (AssertNonZero_zero_value_recorded_set userOnlySubject
              "user.first_name" (AString "") eq_refl) as [[Hf Hev] _].
  cbv zeta. rewrite Hf. split; [reflexivity | exact Hev].
Defined.

(** So "it should validate non-zero" gets no error where it expects one. *)
Lemma nonZeroSubject_passes :
  outcome (Evaluate id tt nonZeroSubject) = Some None.
Proof. reflexivity. Qed.

(** "it should run a custom action before request field validation": the
    hook refuses the update and [Evaluate] panics. *)
Lemma Evaluate_init_failure_without_handler_witness :
  initAction guardedSubject = Some authorizeUpdate /\
  (authorizeUpdate tt (message guardedSubject)).2 = Some "can only update user abc123" /\
  fh guardedSubject = None /\
  outcome (Evaluate id tt guardedSubject) = None /\
  events (Evaluate id tt guardedSubject) = [EvHook HInit].
Proof.
  assert (H1 : initAction guardedSubject = Some authorizeUpdate) by reflexivity.
  assert (H2 : (authorizeUpdate tt (message guardedSubject)).2
               = Some "can only update user abc123") by reflexivity.
  assert (H3 : fh guardedSubject = None) by reflexivity.
  do 3 (split; [assumption|]).
  exact (Evaluate_init_failure_without_handler id tt guardedSubject
           authorizeUpdate "can only update user abc123" H1 H2 H3).
Defined.

(** With a handler set, the failing hook leaves every one of the five
    declared policies unevaluated. *)
Lemma init_failure_skips_policies :
  length (traitPolicies (pm guardedSubjectWithHandler)) = 5 /\
  occurrences (EvPolicy KTrait 0) (events (Evaluate id tt guardedSubjectWithHandler)) = 0 /\
  outcome (Evaluate id tt guardedSubjectWithHandler)
  = Some (Some ": can only update user abc123
").
Proof. by vm_compute. Qed.


(** A rule fails, the collected list holds its fault, and [Evaluate]
    returns nil: the handler of the caller answers nil. *)
Lemma silent_handler_hides_faults :
  outcome (collectFaults id tt silencedSubject)
  = Some [FieldFault "user.id" prevalErr] /\
  outcome (Evaluate id tt silencedSubject) = Some None.
Proof. by vm_compute. Qed.

Lemma Evaluate_returns_handler_result_witness :
  init tt twoFaultsSubject = mkRes (Some None) twoFaultsSubject [] /\
  (let rc := collectFaults id tt twoFaultsSubject in
   collectFaults id tt twoFaultsSubject
   = mkRes (Some (default [] (outcome rc))) (final rc) (events rc) /\
   handlerCalls (events (Evaluate id tt twoFaultsSubject))
   = [default [] (outcome rc)]).
Proof.
  assert (H1 : init tt twoFaultsSubject = mkRes (Some None) twoFaultsSubject [])
    by reflexivity.
  assert (H2 : collectFaults id tt twoFaultsSubject
               = mkRes (Some (default [] (outcome (collectFaults id tt twoFaultsSubject))))
                       (final (collectFaults id tt twoFaultsSubject))
                       (events (collectFaults id tt twoFaultsSubject)))
    by (vm_compute; reflexivity).
  split; [exact H1|]. cbv zeta. split; [exact H2|].
  exact (proj1 (proj2 (Evaluate_returns_handler_result id tt twoFaultsSubject
                         _ _ _ _ _ H1 H2))).
Defined.

(** The success hook runs and fails, its fault is handed to the handler,
    and [Evaluate] returns nil: the handler of the caller answers nil. *)
Lemma silent_handler_hides_success_fault :
  EvHook HSuccess ∈ events (Evaluate id tt silencedSuccessSubject) /\
  handlerCalls (events (Evaluate id tt silencedSuccessSubject))
  = [[RequestFault "refused"]] /\
  outcome (Evaluate id tt silencedSuccessSubject) = Some None.
Proof.
  split; [|by vm_compute].
  vm_compute. apply list_elem_of_further, list_elem_of_here.
Qed.

(** With the default handler the same failure is an error. *)
Lemma failing_success_hook_is_reported :
  outcome (Evaluate id tt failingSuccessSubject) = Some (Some ": refused
").
Proof. reflexivity. Qed.

(** Two faults, two iteration orders of the fault mapping, two different
    errors. *)
Lemma fault_order_changes_error :
  fair id /\ fair reverse /\
  outcome (Evaluate id tt twoFaultsSubject)
  = Some (Some "user.id: the message failed prevalidation
user.last_name: the message failed prevalidation
") /\
  outcome (Evaluate reverse tt twoFaultsSubject)
  = Some (Some "user.last_name: the message failed prevalidation
user.id: the message failed prevalidation
").
Proof.
  split; [exact fair_id|]. split; [exact fair_reverse|]. by vm_compute.
Qed.

Lemma Evaluate_deterministic_up_to_fault_order_witness :
  fair id /\ fair reverse /\
  final (Evaluate id tt twoFaultsSubject) = final (Evaluate reverse tt twoFaultsSubject) /\
  concat (handlerCalls (events (Evaluate id tt twoFaultsSubject)))
  ≡ₚ concat (handlerCalls (events (Evaluate reverse tt twoFaultsSubject))) /\
  length (concat (handlerCalls (events (Evaluate id tt oneFaultSubject)))) <= 1 /\
  outcome (Evaluate id tt oneFaultSubject) = outcome (Evaluate reverse tt oneFaultSubject).
Proof.
  split; [exact fair_id|]. split; [exact fair_reverse|].
  destruct (Evaluate_deterministic_up_to_fault_order id reverse tt
              twoFaultsSubject fair_id fair_reverse) as (Hfin & _ & Hperm & _).
  split; [exact Hfin|]. split; [exact Hperm|].
  assert (Hlen : length (concat (handlerCalls (events (Evaluate id tt oneFaultSubject))))
                 <= 1) by (vm_compute; lia).
  split; [exact Hlen|].
  exact (proj2 (proj2 (proj2 (proj2 (proj2
           (Evaluate_deterministic_up_to_fault_order id reverse tt
              oneFaultSubject fair_id fair_reverse))))) Hlen).
Defined.

End OnScenarios.

(** * Further properties of the builder *)

Section BuilderChains.
Context {Msg Ctx : Type}.
Implicit Types (s : Subject Msg Ctx) (path : string) (v : any)
  (d : Decl Msg Ctx) (ds : list (Decl Msg Ctx)).

(** X1: [getPathsFromMask] gives the nil map for a nil or empty mask, and
    for any other mask a map whose keys are exactly the paths of the mask,
    duplicates collapsed. *)
Theorem getPathsFromMask_keys :
  getPathsFromMask [] = None /\
  forall f (fieldMask : list string),
    exists ps, getPathsFromMask (f :: fieldMask) = Some ps
               /\ dom ps = list_to_set (f :: fieldMask)
               /\ size ps = length (remove_dups (f :: fieldMask)).
Proof.
  split; [reflexivity|]. intros f fieldMask. eexists. split; [reflexivity|].
  set (ps := foldl (fun paths x => <[x := tt]> paths) ∅ (f :: fieldMask)).
  assert (Hdom : dom ps = list_to_set (C:=gset string) (f :: fieldMask)).
  { apply set_eq. intros p. rewrite elem_of_dom, elem_of_list_to_set.
    unfold ps. rewrite lookup_foldl_insert, lookup_empty, is_Some_alt. tauto. }
  split; [exact Hdom|].
  rewrite <- size_dom, Hdom.
  rewrite <- (size_list_to_set (C:=gset string) (remove_dups (f :: fieldMask)))
    by apply NoDup_remove_dups.
  f_equal. apply set_eq. intros p.
  by rewrite !elem_of_list_to_set, elem_of_remove_dups.
Qed.

(** One builder call: it returns, asks the resolver at most the one
    question of [resolverCall], and leaves message, mask, resolver and post
    hook as they are. *)
Lemma declare_frame d s :
  outcome (declare d s) = Some tt /\
  events (declare d s) = option_list (resolverCall d) /\
  message (final (declare d s)) = message s /\
  paths (final (declare d s)) = paths s /\
  fieldProcessor_ (final (declare d s)) = fieldProcessor_ s /\
  postAction (final (declare d s)) = postAction s.
Proof.
  destruct d; simpl;
    unfold AssertNonZero, AssertNonZeroWhenInMask, AssertCustom,
      AssertCustomWhenInMask, BeforeValidation, OnSuccess, CustomFaultHandler,
      isFieldSet, resolve, modify, bind, get, put, ret, emit;
    simpl; try destruct (isZero value); simpl; repeat split.
Qed.

Lemma declare_policies d s :
  map (fun p => (f_path (tp_field p), tp_cond p)) (traitPolicies (pm (final (declare d s))))
  = map (fun p => (f_path (tp_field p), tp_cond p)) (traitPolicies (pm s))
    ++ option_list (traitDecl d) /\
  map (fun p => (f_path (ap_field p), ap_cond p, ap_action p))
      (actionPolicies (pm (final (declare d s))))
  = map (fun p => (f_path (ap_field p), ap_cond p, ap_action p)) (actionPolicies (pm s))
    ++ option_list (actionDecl d).
Proof.
  destruct d; simpl;
    unfold AssertNonZero, AssertNonZeroWhenInMask, AssertCustom,
      AssertCustomWhenInMask, BeforeValidation, OnSuccess, CustomFaultHandler,
      isFieldSet, resolve, modify, bind, get, put, ret, emit;
    simpl; try destruct (isZero value); simpl;
    rewrite ?map_app, ?app_nil_r; split; reflexivity.
Qed.

Lemma chain_cons d ds s :
  chain (d :: ds) s
  = mkRes (outcome (chain ds (final (declare d s))))
          (final (chain ds (final (declare d s))))
          (events (declare d s) ++ events (chain ds (final (declare d s)))).
Proof.
  simpl. unfold bind. by rewrite (proj1 (declare_frame d s)).
Qed.

Lemma chain_preserved ds s :
  message (final (chain ds s)) = message s /\
  paths (final (chain ds s)) = paths s.
Proof.
  revert s. induction ds as [|d ds IH]; intros s; [by split|].
  rewrite chain_cons. cbn [final].
  destruct (IH (final (declare d s))) as [Hm Hp].
  destruct (declare_frame d s) as (_ & _ & Hm' & Hp' & _).
  by rewrite Hm, Hp, Hm', Hp'.
Qed.

(** X2: a chain of builder calls always returns; it asks the resolver
    exactly the questions of its rules, in declaration order (a value rule
    with a zero value asks none), and calls no hook, no action and no fault
    handler; it leaves the message, the mask, the resolver and the post
    hook of the Subject as they were. *)
Theorem chain_frame ds s :
  let r := chain ds s in
  outcome r = Some tt /\
  events r = omap resolverCall ds /\
  message (final r) = message s /\
  paths (final r) = paths s /\
  fieldProcessor_ (final r) = fieldProcessor_ s /\
  postAction (final r) = postAction s.
Proof.
  revert s. induction ds as [|d ds IH]; intros s; [by repeat split|].
  cbv zeta. rewrite chain_cons. cbn [outcome final events].
  destruct (IH (final (declare d s))) as (Ho & Hev & Hm & Hp & Hfp & Hpost).
  destruct (declare_frame d s) as (_ & Hev' & Hm' & Hp' & Hfp' & Hpost').
  rewrite Ho, Hev, Hev', Hm, Hm', Hp, Hp', Hfp, Hfp', Hpost, Hpost'.
  repeat split. simpl. by destruct (resolverCall d).
Qed.

(** X3: a chain of builder calls adds one policy per rule, after the
    policies already declared and in declaration order: the trait policies
    carry the paths and conditions of the value rules, the action policies
    the paths, conditions and actions of the action rules. *)
Theorem chain_policies ds s :
  let s' := final (chain ds s) in
  map (fun p => (f_path (tp_field p), tp_cond p)) (traitPolicies (pm s'))
  = map (fun p => (f_path (tp_field p), tp_cond p)) (traitPolicies (pm s))
    ++ omap traitDecl ds /\
  map (fun p => (f_path (ap_field p), ap_cond p, ap_action p)) (actionPolicies (pm s'))
  = map (fun p => (f_path (ap_field p), ap_cond p, ap_action p)) (actionPolicies (pm s))
    ++ omap actionDecl ds.
Proof.
  revert s. induction ds as [|d ds IH]; intros s.
  - cbv zeta. simpl. by rewrite !app_nil_r.
  - cbv zeta. rewrite chain_cons. cbn [final].
    destruct (IH (final (declare d s))) as [Ht Ha].
    destruct (declare_policies d s) as [Ht' Ha'].
    cbv zeta in Ht, Ha. rewrite Ht, Ha, Ht', Ha', <- !app_assoc.
    split; f_equal; simpl.
    + by destruct (traitDecl d).
    + by destruct (actionDecl d).
Qed.

Lemma declare_inMaskRecorded d s :
  inMaskRecorded s -> inMaskRecorded (final (declare d s)).
Proof.
  intros [Ht Ha].
  destruct d; try (split; assumption);
    unfold declare, AssertNonZero, AssertNonZeroWhenInMask, AssertCustom,
      AssertCustomWhenInMask, isFieldSet, bind, get;
    simpl; try destruct (isZero value); simpl; split; simpl; try assumption;
    apply Forall_app; (split; [assumption|]);
    apply Forall_singleton; reflexivity.
Qed.

Lemma chain_inMaskRecorded ds s :
  inMaskRecorded s -> inMaskRecorded (final (chain ds s)).
Proof.
  revert s. induction ds as [|d ds IH]; intros s Hs; [exact Hs|].
  rewrite chain_cons. cbn [final]. by apply IH, declare_inMaskRecorded.
Qed.

(** X4: on a Subject constructed from any mask, after any chain of builder
    calls, the mask membership recorded in the Field of every declared
    policy is exactly whether its path occurs in the mask given to
    [ForSubject]: paths are compared as whole strings, at declaration. *)
Theorem chain_inMask_is_membership fp (msg : Msg) fieldMask ds :
  let s := final (chain ds (ForSubject fp msg fieldMask)) in
  Forall (fun p => f_inMask (tp_field p)
                   = bool_decide (f_path (tp_field p) ∈ fieldMask))
         (traitPolicies (pm s)) /\
  Forall (fun p => f_inMask (ap_field p)
                   = bool_decide (f_path (ap_field p) ∈ fieldMask))
         (actionPolicies (pm s)).
Proof.
  intros s.
  assert (Hrec : inMaskRecorded s).
  { apply chain_inMaskRecorded. split; constructor. }
  assert (Hmask : forall path, isFieldInMask s path = bool_decide (path ∈ fieldMask)).
  { intros path. rewrite <- (isFieldInMask_ForSubject (Ctx:=Ctx) fp msg fieldMask path).
    unfold isFieldInMask, s.
    by rewrite (proj2 (chain_preserved ds (ForSubject fp msg fieldMask))). }
  destruct Hrec as [Ht Ha]. split.
  - eapply Forall_impl; [exact Ht|]. intros p Hp. by rewrite Hp, Hmask.
  - eapply Forall_impl; [exact Ha|]. intros p Hp. by rewrite Hp, Hmask.
Qed.

(** X5: for a declaration made via [AssertNonZero] or
    [AssertNonZeroWhenInMask] whose supplied value is not the zero value,
    the supplied value decides nothing: the presence recorded in the Field
    is what the path resolver answers for the path on the message, and the
    resolver is consulted once. *)
Theorem AssertNonZero_nonzero_presence_from_resolver s path v :
  isZero v = false ->
  (let r := AssertNonZero path v s in
   outcome r = Some tt /\
   final r = set_pm (AddTraitPolicy
               (NewPolicy NotZeroTrait MustBeSet
                  (NewField path v (isFieldInMask s path) (resolved s path))) (pm s)) s
   /\ events r = [EvResolve path]) /\
  (let r := AssertNonZeroWhenInMask path v s in
   outcome r = Some tt /\
   final r = set_pm (AddTraitPolicy
               (NewPolicy NotZeroTrait MustBeSetIfInMask
                  (NewField path v (isFieldInMask s path) (resolved s path))) (pm s)) s
   /\ events r = [EvResolve path]).
Proof.
  intros Hz.
  unfold AssertNonZero, AssertNonZeroWhenInMask, isFieldSet, bind, get; simpl.
  rewrite Hz. simpl. auto 10.
Qed.

Lemma declare_hooks d s :
  initAction (final (declare d s)) = from_option Some (initAction s) (initDecl d) /\
  successAction (final (declare d s)) = from_option Some (successAction s) (successDecl d) /\
  fh (final (declare d s)) = from_option Some (fh s) (handlerDecl d).
Proof.
  destruct d; simpl;
    unfold AssertNonZero, AssertNonZeroWhenInMask, AssertCustom,
      AssertCustomWhenInMask, BeforeValidation, OnSuccess, CustomFaultHandler,
      isFieldSet, resolve, modify, bind, get, put, ret, emit;
    simpl; try destruct (isZero value); simpl; repeat split.
Qed.

Lemma last_omap_cons {A B} (f : A -> option B) (x : A) (l : list A) (d : option B) :
  from_option Some (from_option Some d (f x)) (last (omap f l))
  = from_option Some d (last (omap f (x :: l))).
Proof.
  change (omap f (x :: l))
    with (match f x with Some y => y :: omap f l | None => omap f l end).
  destruct (f x) as [b|]; [|reflexivity]. simpl.
  generalize (omap f l). intros [|c l']; [reflexivity|].
  rewrite last_cons_cons.
  destruct (last (c :: l')) eqn:Hlast; [reflexivity|].
  by apply last_None in Hlast.
Qed.

(** X6: in a chain of builder calls the hooks and the fault handler are
    single slots: the last [BeforeValidation], the last [OnSuccess] and the
    last [CustomFaultHandler] of the chain are the ones the Subject keeps,
    an earlier one is dropped, and the rule declarations leave the slots as
    they are. *)
Theorem chain_last_hook_wins ds s :
  let s' := final (chain ds s) in
  initAction s' = from_option Some (initAction s) (last (omap initDecl ds)) /\
  successAction s' = from_option Some (successAction s) (last (omap successDecl ds)) /\
  fh s' = from_option Some (fh s) (last (omap handlerDecl ds)).
Proof.
  revert s. induction ds as [|d ds IH]; intros s; [by repeat split|].
  cbv zeta. rewrite chain_cons. cbn [final].
  destruct (IH (final (declare d s))) as (Hi & Hs & Hh).
  destruct (declare_hooks d s) as (Hi' & Hs' & Hh').
  cbv zeta in Hi, Hs, Hh.
  rewrite Hi, Hs, Hh, Hi', Hs', Hh'.
  repeat split; apply last_omap_cons.
Qed.

End BuilderChains.

(** * Further properties of the evaluation *)

Section EvaluationPaths.
Context {Msg Ctx : Type}.
Implicit Types (s : Subject Msg Ctx) (ctx : Ctx) (ro : RangeOrder)
  (act : Action Msg Ctx).

(** The pre-hook either fails, or is absent or succeeds. *)
Lemma init_cases ctx s :
  (exists act e, initAction s = Some act /\ (act ctx (message s)).2 = Some e) \/
  (exists s1 ev1, init ctx s = mkRes (Some None) s1 ev1).
Proof.
  rewrite init_run. destruct (initAction s) as [act|]; [|right; eauto].
  destruct ((act ctx (message s)).2) as [e|] eqn:He; [left; eauto | right; eauto].
Qed.

Lemma init_outcome_passed ctx s :
  outcome (init ctx s) = Some None -> exists s1 ev1, init ctx s = mkRes (Some None) s1 ev1.
Proof.
  intros H. destruct (init ctx s) as [o s1 ev1]. simpl in H. subst o. eauto.
Qed.

(** When the pre-hook is absent or succeeds, [Evaluate] returns, and what
    it leaves is the Subject with a handler and a message of its own. *)
Lemma Evaluate_passed_final ro ctx s s1 ev1 :
  init ctx s = mkRes (Some None) s1 ev1 ->
  outcome (Evaluate ro ctx s) <> None /\
  exists m, final (Evaluate ro ctx s) = withHandler (set_message m s).
Proof.
  intros Hinit.
  destruct (Evaluate_init_passed ro ctx s s1 ev1 Hinit)
    as (all & m2 & sf & s3 & ev3 & _ & _ & _ & Hs3 & ->).
  split; [discriminate|]. exists (message s3). simpl. by rewrite <- Hs3.
Qed.

(** X7: [Evaluate] panics in exactly one situation: the BeforeValidation
    hook is set and returns an error while the Subject has no fault
    handler. In every other situation it returns. *)
Theorem Evaluate_panics_iff ro ctx s :
  outcome (Evaluate ro ctx s) = None <->
  exists act e, initAction s = Some act /\ (act ctx (message s)).2 = Some e
                /\ fh s = None.
Proof.
  destruct (init_cases ctx s) as [(act & e & Hact & He)|(s1 & ev1 & Hinit)].
  - rewrite (Evaluate_init_failed ro ctx s act e Hact He). split.
    + destruct (fh s) as [h|] eqn:Hfh; [discriminate|]. intros _. eauto.
    + intros (act' & e' & _ & _ & ->). reflexivity.
  - split.
    + intros Hp. by destruct (Evaluate_passed_final ro ctx s s1 ev1 Hinit) as [Hn _].
    + intros (act & e & Hact & He & _). exfalso.
      rewrite init_run, Hact, He in Hinit. discriminate.
Qed.

(** X8: [Evaluate] changes nothing of the Subject but its message, which
    only the hooks and the actions write, and its fault handler: the
    policies, the hooks, the mask and the resolver are as before, so the
    Subject can be evaluated again; a handler that was set is kept, and
    the only handler ever installed is the default one, where none was
    set. *)
Theorem Evaluate_frame ro ctx s :
  let s' := final (Evaluate ro ctx s) in
  s' = set_fh (fh s') (set_message (message s') s) /\
  (fh s' = fh s \/ (fh s = None /\ fh s' = Some newDefaultFaultHandler)).
Proof.
  cbv zeta.
  destruct (init_cases ctx s) as [(act & e & Hact & He)|(s1 & ev1 & Hinit)].
  - rewrite (Evaluate_init_failed ro ctx s act e Hact He).
    destruct (fh s) as [h|] eqn:Hfh; simpl; (split; [|by left]);
      destruct s; simpl in *; by rewrite ?Hfh.
  - destruct (Evaluate_passed_final ro ctx s s1 ev1 Hinit) as [_ [m ->]].
    unfold withHandler. simpl.
    destruct (fh s) as [h|] eqn:Hfh; simpl.
    + rewrite Hfh. split; [|by left]. destruct s; simpl in *. by rewrite Hfh.
    + split; [|by right]. by destruct s.
Qed.

(** X10: after an [Evaluate] whose BeforeValidation hook is absent or
    succeeds, the Subject has a fault handler, the one that was set or else
    the default one, so a later [Evaluate] on the same Subject returns
    whatever its hooks do. *)
Theorem Evaluate_installs_handler ro ctx s :
  outcome (init ctx s) = Some None ->
  let s' := final (Evaluate ro ctx s) in
  fh s' = Some (handlerOf s) /\
  forall ro' ctx', outcome (Evaluate ro' ctx' s') <> None.
Proof.
  intros Hpass. cbv zeta.
  destruct (init_outcome_passed ctx s Hpass) as (s1 & ev1 & Hinit).
  destruct (Evaluate_passed_final ro ctx s s1 ev1 Hinit) as [_ [m Hfin]].
  assert (Hfh : fh (final (Evaluate ro ctx s)) = Some (handlerOf s)).
  { rewrite Hfin. unfold withHandler, handlerOf. simpl.
    destruct (fh s) as [h|] eqn:Hh; simpl; by rewrite ?Hh. }
  split; [exact Hfh|]. intros ro' ctx'.
  set (s' := final (Evaluate ro ctx s)) in *.
  destruct (init_cases ctx' s') as [(act & e & Hact & He)|(s1' & ev1' & Hinit')].
  - rewrite (Evaluate_init_failed ro' ctx' s' act e Hact He), Hfh. discriminate.
  - by destruct (Evaluate_passed_final ro' ctx' s' s1' ev1' Hinit') as [Hn _].
Qed.

(** X11: when no policy faults, the success hook runs on the message as
    the policies left it, and what it writes to the message is what the
    caller finds after [Evaluate], whether the hook succeeds or fails: its
    success makes [Evaluate] return nil, its failure is handed to the
    handler as the one request fault. *)
Theorem onSuccess_mutation_observable ro ctx s s1 ev1 all m2 ev2 act :
  init ctx s = mkRes (Some None) s1 ev1 ->
  ExecuteAllPolicies (pm s) ctx (message s1) = mkRes (Some all) m2 ev2 ->
  fieldFaults ro all = [] ->
  successAction s = Some act ->
  let r := Evaluate ro ctx s in
  message (final r) = (act ctx m2).1 /\
  outcome r = Some (match (act ctx m2).2 with
                    | None => None
                    | Some e => ToError (handlerOf s) [RequestFault e]
                    end).
Proof.
  intros Hinit Hall Hnone Hact. cbv zeta.
  destruct (init_passed _ _ _ _ Hinit) as [Hs1 _].
  destruct (Evaluate_init_passed ro ctx s s1 ev1 Hinit)
    as (all' & m2' & sf & s3 & ev3 & Hall' & Hsucc & _ & _ & ->).
  rewrite Hall in Hall'. injection Hall' as <- <- _.
  rewrite Hnone in *. rewrite onSuccess_run in Hsucc.
  assert (Hact1 : successAction (set_message m2 s1) = Some act)
    by (rewrite Hs1; exact Hact).
  rewrite Hact1 in Hsucc. injection Hsucc as <- <- _. simpl.
  split.
  - unfold withHandler. by destruct (fh _).
  - by destruct ((act ctx m2).2).
Qed.

(** X12: each of the three hook methods ([init], [onSuccess],
    [postValidation]) returns; it calls the hook of its own slot once when
    one is set and nothing otherwise; it returns a fault exactly when the
    hook returns an error, and the fault is the [RequestFault] of that
    error; only the message of the Subject may change. *)
Theorem hook_fault_iff h ctx s :
  let r := hookMethod h ctx s in
  (forall f, outcome r = Some (Some f) <->
     exists act e, hookSlot h s = Some act /\ (act ctx (message s)).2 = Some e
                   /\ f = RequestFault e) /\
  outcome r <> None /\
  final r = set_message (message (final r)) s /\
  events r = match hookSlot h s with Some _ => [EvHook h] | None => [] end.
Proof.
  cbv zeta.
  assert (Hrun : hookMethod h ctx s = callHook h (hookSlot h s) ctx s).
  { destruct h; simpl; unfold init, onSuccess, postValidation;
      rewrite (bind_ok get _ s s s []) by reflexivity;
      rewrite callHook_run;
      [destruct (initAction s) | destruct (successAction s) | destruct (postAction s)];
      reflexivity. }
  rewrite Hrun, callHook_run.
  destruct (hookSlot h s) as [act|]; cbn [outcome final events].
  - split; [|split; [discriminate | split; [by destruct s | reflexivity]]].
    intros f. split.
    + destruct ((act ctx (message s)).2) as [e|] eqn:He; simpl; [|discriminate].
      intros [= <-]. exists act, e. repeat split. exact He.
    + intros (act' & e & [= <-] & -> & ->). reflexivity.
  - split; [|split; [discriminate | split; [by rewrite set_message_same | reflexivity]]].
    intros f. split; [discriminate|].
    intros (act & e & Hn & _). discriminate.
Qed.

(** X13: [Evaluate] calls the fault handler at most once, and never on an
    empty list of faults. *)
Theorem Evaluate_handler_called_at_most_once ro ctx s :
  let calls := handlerCalls (events (Evaluate ro ctx s)) in
  length calls <= 1 /\ Forall (fun fs => fs <> []) calls.
Proof.
  cbv zeta.
  destruct (init_cases ctx s) as [(act & e & Hact & He)|(s1 & ev1 & Hinit)].
  - rewrite (Evaluate_init_failed ro ctx s act e Hact He).
    destruct (fh s); simpl; split; try lia; repeat constructor; discriminate.
  - destruct (init_passed _ _ _ _ Hinit) as [_ Hev1].
    destruct (Evaluate_init_passed ro ctx s s1 ev1 Hinit)
      as (all & m2 & sf & s3 & ev3 & _ & _ & Hev3 & _ & ->).
    cbn [events]. rewrite !handlerCalls_app, policyTrace_no_handler,
      (handlerCalls_hooks _ _ Hev1), (handlerCalls_hooks _ _ Hev3). simpl.
    destruct (fieldFaults ro all ++ option_list sf) as [|x l]; simpl;
      split; try lia; repeat constructor; discriminate.
Qed.

Lemma executeTraitPolicies_allSet i (ps : list TraitPolicy) acc (msg : Msg) :
  Forall (fun p => f_isSet (tp_field p) = true) ps ->
  executeTraitPolicies i ps acc msg
  = mkRes (Some acc) msg (map (EvPolicy KTrait) (seq i (length ps))).
Proof.
  intros Hall. revert i. induction Hall as [|p ps Hp _ IH]; intros i; [reflexivity|].
  simpl. unfold bind, emit; simpl. rewrite Hp, andb_false_r, IH. reflexivity.
Qed.

Lemma declare_zeroValueRule (d : Decl Msg Ctx) s :
  zeroValueRule d = true ->
  initAction (final (declare d s)) = initAction s /\
  successAction (final (declare d s)) = successAction s /\
  actionPolicies (pm (final (declare d s))) = actionPolicies (pm s) /\
  (allRecordedSet (pm s) -> allRecordedSet (pm (final (declare d s)))).
Proof.
  destruct d; try discriminate; simpl; intros Hz;
    unfold AssertNonZero, AssertNonZeroWhenInMask, isFieldSet, bind, get; simpl;
    rewrite Hz; simpl; repeat split;
    intros Hall; apply Forall_app; (split; [exact Hall|]); by apply Forall_singleton.
Qed.

Lemma chain_zeroValueRules (ds : list (Decl Msg Ctx)) s :
  forallb zeroValueRule ds = true ->
  initAction (final (chain ds s)) = initAction s /\
  successAction (final (chain ds s)) = successAction s /\
  actionPolicies (pm (final (chain ds s))) = actionPolicies (pm s) /\
  (allRecordedSet (pm s) -> allRecordedSet (pm (final (chain ds s)))).
Proof.
  revert s. induction ds as [|d ds IH]; intros s Hds; [by repeat split|].
  simpl in Hds. apply andb_prop in Hds as [Hd Hds].
  rewrite chain_cons. cbn [final].
  destruct (IH (final (declare d s)) Hds) as (Hi & Hs & Ha & Hr).
  destruct (declare_zeroValueRule d s Hd) as (Hi' & Hs' & Ha' & Hr').
  rewrite Hi, Hs, Ha, Hi', Hs', Ha'. repeat split. auto.
Qed.

(** X14: a Subject all of whose rules are value rules ([AssertNonZero],
    [AssertNonZeroWhenInMask]) with the zero value or nil as supplied value
    always evaluates to nil, whatever the message and the mask: every such
    field is recorded as set, so no policy faults, and the message is as it
    was. *)
Theorem Evaluate_zero_values_pass ro ctx fp (msg : Msg) fieldMask
    (ds : list (Decl Msg Ctx)) :
  fair ro ->
  forallb zeroValueRule ds = true ->
  let s := final (chain ds (ForSubject fp msg fieldMask)) in
  outcome (Evaluate ro ctx s) = Some None /\
  message (final (Evaluate ro ctx s)) = msg.
Proof.
  intros Hfair Hds s.
  destruct (chain_zeroValueRules ds (ForSubject fp msg fieldMask) Hds)
    as (Hi & Hs & Ha & Hr).
  fold s in Hi, Hs, Ha, Hr. simpl in Hi, Hs, Ha.
  assert (Hset : allRecordedSet (pm s)) by (apply Hr; constructor).
  assert (Hmsg : message s = msg).
  { unfold s.
    by rewrite (proj1 (chain_preserved ds (ForSubject fp msg fieldMask))). }
  assert (Hinit : init ctx s = mkRes (Some None) s []) by (by rewrite init_run, Hi).
  assert (Hall : ExecuteAllPolicies (pm s) ctx (message s)
                 = mkRes (Some ∅) (message s) (policyTrace (pm s))).
  { unfold ExecuteAllPolicies, policyTrace, bind at 1, emit; simpl. unfold bind.
    rewrite (executeTraitPolicies_allSet 0 _ ∅ (message s) Hset), Ha. simpl.
    by rewrite app_nil_r. }
  assert (Hnone : fieldFaults ro ∅ = []).
  { unfold fieldFaults. rewrite map_to_list_empty.
    by rewrite (proj1 (Permutation_nil_r _) (Hfair [])). }
  destruct (Evaluate_init_passed ro ctx s s [] Hinit)
    as (all & m2 & sf & s3 & ev3 & Hall' & Hsucc & _ & _ & ->).
  rewrite Hall in Hall'. injection Hall' as <- <-.
  rewrite Hnone in *. rewrite onSuccess_run in Hsucc. simpl in Hsucc.
  rewrite Hs in Hsucc. injection Hsucc as <- <- _. simpl.
  split; [reflexivity|]. unfold withHandler. by destruct (fh _).
Qed.

End EvaluationPaths.

(** * The fault handler of the test file *)

Section TestHandler.

Lemma append_nil_r (t : string) : t +:+ "" = t.
Proof.
  induction t as [|a t IH]; [reflexivity|].
  change (String a t +:+ "") with (String a (t +:+ "")). by rewrite IH.
Qed.

Lemma append_assoc (t1 t2 t3 : string) : (t1 +:+ t2) +:+ t3 = t1 +:+ t2 +:+ t3.
Proof.
  induction t1 as [|a t1 IH]; [reflexivity|].
  change ((String a t1 +:+ t2) +:+ t3) with (String a ((t1 +:+ t2) +:+ t3)).
  by rewrite IH.
Qed.

Lemma HandleErrs_foldl (acc : string) (errs : list Fault) :
  foldl (fun errString e => errString +:+ FaultField e +:+ ": " +:+ FaultErr e +:+ "
") acc errs
  = acc +:+ foldl (fun errString e => errString +:+ FaultField e +:+ ": " +:+ FaultErr e +:+ "
") "" errs.
Proof.
  revert acc. induction errs as [|e errs IH]; intros acc; simpl.
  - by rewrite append_nil_r.
  - rewrite IH, (IH (String.app "" _)). by rewrite append_assoc.
Qed.

(** X15: the handler of the test file renders the faults in the order it
    is given them, each as its field, a colon and a space, its error and a
    newline: one fault gives exactly that line, a list gives its lines one
    after the other, the error of two lists appended is the two error texts
    appended, and the error is never nil, not even on an empty list, where
    the text is empty. *)
Theorem MyErrResultHandler_renders_in_order (errs1 errs2 : list Fault) :
  ToError MyErrResultHandler [] = Some "" /\
  (forall field err,
     ToError MyErrResultHandler [mkFault field err]
     = Some (field +:+ ": " +:+ err +:+ "
")) /\
  ToError MyErrResultHandler errs1
  = Some (foldr (fun e t => (FaultField e +:+ ": " +:+ FaultErr e +:+ "
") +:+ t) "" errs1) /\
  exists t1 t2,
    ToError MyErrResultHandler errs1 = Some t1 /\
    ToError MyErrResultHandler errs2 = Some t2 /\
    ToError MyErrResultHandler (errs1 ++ errs2) = Some (t1 +:+ t2).
Proof.
  split; [reflexivity|]. split; [reflexivity|]. split.
  - simpl. f_equal. induction errs1 as [|e errs IH]; [reflexivity|].
    simpl. rewrite HandleErrs_foldl, IH. reflexivity.
  - do 2 eexists. do 2 (split; [reflexivity|]).
    simpl. by rewrite foldl_app, HandleErrs_foldl.
Qed.

End TestHandler.

(** * The further properties on the Subjects of the test file *)

Section OnScenariosFurther.
Import Propl Scenarios.

(** The supplied first name is "bob", the message has none: the field is
    recorded as not set. *)
Lemma AssertNonZero_nonzero_presence_from_resolver_witness :
  isZero (AString "bob") = false /\
  (let r := AssertNonZero "user.first_name" (AString "bob") userOnlySubject in
   f_isSet <$> (tp_field <$> last (traitPolicies (pm (final r)))) = Some false /\
   events r = [EvResolve "user.first_name"]).
Proof.
  split; [reflexivity|].
  destruct (AssertNonZero_nonzero_presence_from_resolver userOnlySubject
              "user.first_name" (AString "bob") eq_refl) as [(_ & Hf & Hev) _].
  cbv zeta. rewrite Hf. split; [reflexivity | exact Hev].
Defined.

(** "it should run a custom action before request field validation" with
    the handler of the test file set: the refusal of the hook is the
    error. *)
Lemma Evaluate_init_failure_with_handler_witness :
  initAction guardedSubjectWithHandler = Some authorizeUpdate /\
  (authorizeUpdate tt (message guardedSubjectWithHandler)).2
  = Some "can only update user abc123" /\
  fh guardedSubjectWithHandler = Some MyErrResultHandler /\
  outcome (Evaluate id tt guardedSubjectWithHandler)
  = Some (ToError MyErrResultHandler [RequestFault "can only update user abc123"]) /\
  events (Evaluate id tt guardedSubjectWithHandler)
  = [EvHook HInit; EvToError [RequestFault "can only update user abc123"]].
Proof.
  assert (H1 : initAction guardedSubjectWithHandler = Some authorizeUpdate)
    by reflexivity.
  assert (H2 : (authorizeUpdate tt (message guardedSubjectWithHandler)).2
               = Some "can only update user abc123") by reflexivity.
  assert (H3 : fh guardedSubjectWithHandler = Some MyErrResultHandler) by reflexivity.
  do 3 (split; [assumption|]).
  exact (Evaluate_init_failure_with_handler id tt guardedSubjectWithHandler
           authorizeUpdate "can only update user abc123" MyErrResultHandler H1 H2 H3).
Defined.

(** Two rules fail and no handler was set: the default one is installed. *)
Lemma Evaluate_installs_handler_witness :
  outcome (init tt twoFaultsSubject) = Some None /\
  fh (final (Evaluate id tt twoFaultsSubject)) = Some newDefaultFaultHandler /\
  outcome (Evaluate reverse tt (final (Evaluate id tt twoFaultsSubject))) <> None.
Proof.
  assert (H : outcome (init tt twoFaultsSubject) = Some None) by reflexivity.
  split; [exact H|].
  destruct (Evaluate_installs_handler id tt twoFaultsSubject H) as [Hfh Hret].
  split; [exact Hfh | exact (Hret reverse tt)].
Defined.

(** "it should run a custom action if validation successful", on a user
    the hook lets through: no rule fails, the success hook fills in the
    last name, and the caller finds it. *)
Lemma onSuccess_mutation_observable_witness :
  init tt successSubject = mkRes (Some None) successSubject [EvHook HInit] /\
  ExecuteAllPolicies (pm successSubject) tt (message successSubject)
  = mkRes (Some ∅) authorizedBob (policyTrace (pm successSubject)) /\
  fieldFaults id ∅ = [] /\
  successAction successSubject = Some doLogic /\
  message (final (Evaluate id tt successSubject))
  = mkRequest (Some (mkUser "abc123" "bob" "NA" (Some (mkAddress "a" "b")))) /\
  outcome (Evaluate id tt successSubject) = Some None.
Proof.
  assert (H1 : init tt successSubject = mkRes (Some None) successSubject [EvHook HInit])
    by reflexivity.
  assert (H2 : ExecuteAllPolicies (pm successSubject) tt (message successSubject)
               = mkRes (Some ∅) authorizedBob (policyTrace (pm successSubject)))
    by (vm_compute; reflexivity).
  assert (H3 : fieldFaults id ∅ = []) by reflexivity.
  assert (H4 : successAction successSubject = Some doLogic) by reflexivity.
  do 4 (split; [assumption|]).
  exact (onSuccess_mutation_observable id tt successSubject successSubject
           [EvHook HInit] ∅ authorizedBob _ doLogic H1 H2 H3 H4).
Defined.

(** Three rules on values that are empty, on a message without these
    fields: no error. *)
Lemma Evaluate_zero_values_pass_witness :
  fair id /\
  forallb (zeroValueRule (Msg:=Request) (Ctx:=unit))
    [DNonZero "user.id" (AString ""); DNonZero "some.fake" ANil;
     DNonZeroWhenInMask "user.last_name" (AString "")] = true /\
  outcome (Evaluate id tt
             (final (chain [DNonZero "user.id" (AString ""); DNonZero "some.fake" ANil;
                            DNonZeroWhenInMask "user.last_name" (AString "")]
                       (ForSubject resolver bob ["first_name"; "last_name"]))))
  = Some None.
Proof.
  assert (H : forallb (zeroValueRule (Msg:=Request) (Ctx:=unit))
                [DNonZero "user.id" (AString ""); DNonZero "some.fake" ANil;
                 DNonZeroWhenInMask "user.last_name" (AString "")] = true)
    by reflexivity.
  split; [exact fair_id|]. split; [exact H|].
  exact (proj1 (Evaluate_zero_values_pass id tt resolver bob
                  ["first_name"; "last_name"] _ fair_id H)).
Defined.

End OnScenariosFurther.
